(** * logrus-opsgenie-hook: a shallow embedding of [main.go]

    The hook turns a logrus entry into an OpsGenie [CreateAlertRequest].
    The embedding follows [main.go] function by function.  Go values that
    the code shares by reference (the backing arrays of [[]string] slices,
    the [alertsv2.Team] variables whose address is taken) live in an
    explicit heap that is threaded through the code by a small state monad;
    everything else is a pure function. *)

From Stdlib Require Import ZArith Lia List Ascii String.
From stdpp Require Import base option list gmap fin_maps strings pretty.

Open Scope Z_scope.
Open Scope string_scope.
Open Scope nat_scope.
Open Scope list_scope.

(** ** Go runtime objects *)

(** [alertsv2.Team] *)
Record Team := mkTeam { TeamID : string; TeamName : string }.

Abbreviation loc := nat (only parsing).

(** The heap holds the backing arrays of the [[]string] slices and the
    [alertsv2.Team] variables that are reachable through a pointer.  An
    address is an index in the corresponding list; allocation extends the
    list at its end. *)
Record heap := Heap {
  strs : list (list string);
  tvars : list Team
}.

(** A slice header: pointer to the backing array ([None] is the nil
    slice), position of the first element in it, length and capacity. *)
Record slice := Slice {
  base : option loc;
  off : nat;
  len : nat;
  cap : nat
}.

Definition nil_slice : slice := Slice None 0 0 0.

Definition is_nil (s : slice) : bool :=
  match base s with None => true | Some _ => false end.

Definition array_of (hp : heap) (s : slice) : list string :=
  match base s with
  | Some l => default [] (strs hp !! l)
  | None => []
  end.

(** The elements [s[0]], ..., [s[len(s)-1]] as the heap has them. *)
Definition elems (hp : heap) (s : slice) : list string :=
  take (len s) (drop (off s) (array_of hp s)).

(** Go's memory safety: the window [off .. off+cap) of a non-nil slice
    lies inside an allocated array, and [len <= cap]. *)
Definition wf_slice (hp : heap) (s : slice) : Prop :=
  len s ≤ cap s ∧
  match base s with
  | Some l => ∃ arr, strs hp !! l = Some arr ∧ off s + cap s ≤ length arr
  | None => cap s = 0
  end.

(** ** The heap monad *)

Definition M (A : Type) : Type := heap → A * heap.

#[global] Instance M_ret : MRet M := λ A a hp, (a, hp).

#[global] Instance M_bind : MBind M := λ A B k m hp,
  let '(a, hp') := m hp in k a hp'.

Definition read {A} (f : heap → A) : M A := λ hp, (f hp, hp).

Definition alloc_strs (arr : list string) : M loc :=
  λ hp, (length (strs hp), Heap (strs hp ++ [arr]) (tvars hp)).

Definition alloc_team (t : Team) : M loc :=
  λ hp, (length (tvars hp), Heap (strs hp) (tvars hp ++ [t])).

Definition store_team (l : loc) (t : Team) : M unit :=
  λ hp, (tt, Heap (strs hp) (<[l := t]> (tvars hp))).

(** [copy_into arr i xs]: the element-wise stores [arr[i+k] = xs[k]]. *)
Fixpoint copy_into (arr : list string) (i : nat) (xs : list string) : list string :=
  match xs with
  | [] => arr
  | x :: xs' => copy_into (<[i := x]> arr) (S i) xs'
  end.

Definition store_strs (l : loc) (i : nat) (xs : list string) : M unit :=
  λ hp, (tt, Heap (alter (λ arr, copy_into arr i xs) l (strs hp)) (tvars hp)).

(** ** Library functions the hook calls *)

(** [hash/crc32], the generic implementation: [simplePopulateTable] and
    [simpleUpdate] on [uint32] values, here integers below [2^32]. *)
Definition IEEE : Z := 0xedb88320%Z.

(** one round of the inner loop of [simplePopulateTable] *)
Definition crc_round (poly crc : Z) : Z :=
  if (Z.land crc 1 =? 1)%Z then Z.lxor (Z.shiftr crc 1) poly else Z.shiftr crc 1.

Definition table_entry (poly : Z) (i : Z) : Z :=
  Nat.iter 8 (crc_round poly) i.

Definition simpleMakeTable (poly : Z) : list Z :=
  map (λ i, table_entry poly (Z.of_nat i)) (seq 0 256).

Definition IEEETable : list Z := Eval vm_compute in simpleMakeTable IEEE.

(** [^crc] on [uint32] *)
Definition not32 (crc : Z) : Z := Z.lxor crc 0xffffffff%Z.

Definition simpleUpdate (crc : Z) (tab : list Z) (p : list Z) : Z :=
  let crc := not32 crc in
  let crc :=
    fold_left
      (λ crc v, Z.lxor (nth (Z.to_nat (Z.lxor (Z.land crc 0xff%Z) v)) tab 0%Z)
                       (Z.shiftr crc 8))
      p crc in
  not32 crc.

Definition ChecksumIEEE (data : list Z) : Z := simpleUpdate 0%Z IEEETable data.

(** [[]byte(s)] *)
Definition bytes (s : string) : list Z :=
  map (λ c, Z.of_N (N_of_ascii c)) (list_ascii_of_string s).

(** [strconv]: [digits] and the power-of-two branch of [formatBits] at
    base 16 ([shift = 4], [m = 15]).  The fuel is the size of the buffer
    [a [64 + 1]byte] that the loop fills from its end. *)
Definition digits : string := "0123456789abcdefghijklmnopqrstuvwxyz".

Definition digit (d : Z) : ascii :=
  default "0"%char (String.get (Z.to_nat d) digits).

Fixpoint formatBits16 (fuel : nat) (u : Z) (a : string) : string :=
  match fuel with
  | O => a
  | S fuel' =>
      if (16 <=? u)%Z
      then formatBits16 fuel' (Z.shiftr u 4) (String (digit (Z.land u 15%Z)) a)
      else String (digit u) a
  end.

(** [strconv.FormatUint(i, 16)] *)
Definition FormatUint16 (i : Z) : string := formatBits16 65 i "".

(** the string ["\n"] of a Go source text *)
Definition newline : string := String (ascii_of_nat 10) "".

(** [strings.HasPrefix] *)
Definition HasPrefix (s prefix : string) : bool :=
  (String.length prefix <=? String.length s) &&
  String.eqb (substring 0 (String.length prefix) s) prefix.

(** ** Dynamic values: what an [interface{}] of [logrus.Fields] holds *)

(** [alertsv2.Priority] is a string type of its own *)
Definition Priority := string.
Definition P1 : Priority := "P1".
Definition P2 : Priority := "P2".
Definition P3 : Priority := "P3".
Definition P4 : Priority := "P4".
Definition P5 : Priority := "P5".

(** A value together with its dynamic type.  [VError msg] is a non-nil
    value of a type that implements [error], [msg] being what its [Error()]
    method returns. *)
Inductive value :=
  | VNil
  | VBool (b : bool)
  | VInt (n : Z)
  | VString (s : string)
  | VPriority (p : Priority)
  | VStrings (s : slice)
  | VError (msg : string).

(** [m[key]] on a Go map: the zero value (a nil interface) when absent *)
Definition index (m : gmap string value) (key : string) : value :=
  default VNil (m !! key).

(** type assertions [v.(T)] with their [ok] result *)
Definition as_string (v : value) : option string :=
  match v with VString s => Some s | _ => None end.

Definition as_strings (v : value) : option slice :=
  match v with VStrings s => Some s | _ => None end.

Definition as_priority (v : value) : option Priority :=
  match v with VPriority p => Some p | _ => None end.

(** [v.(error)], giving the asserted value's [Error()] *)
Definition as_error (v : value) : option string :=
  match v with VError msg => Some msg | _ => None end.

(** [fmt.Sprintf("%v", v)] *)
Definition Sprintf_v (hp : heap) (v : value) : string :=
  match v with
  | VNil => "<nil>"
  | VBool b => if b then "true" else "false"
  | VInt n => pretty n
  | VString s => s
  | VPriority p => p
  | VStrings s => "[" +:+ String.concat " " (elems hp s) +:+ "]"
  | VError msg => msg
  end.

(** ** logrus *)

Inductive Level :=
  | PanicLevel | FatalLevel | ErrorLevel | WarnLevel
  | InfoLevel | DebugLevel | TraceLevel.

Record Entry := mkEntry {
  Data : gmap string value;
  EntryLevel : Level;
  Message : string
}.

(** ** main.go: constants and configuration *)

Definition EndpointEU : string := "https://api.eu.opsgenie.com".
Definition EndpointUS : string := "https://api.opsgenie.com".

Definition OverridePrefix : string := "ogh:".
Definition OverrideAlias : string := OverridePrefix +:+ "alias".
Definition OverrideSource : string := OverridePrefix +:+ "source".
Definition OverrideTags : string := OverridePrefix +:+ "tags".
Definition OverrideEntity : string := OverridePrefix +:+ "entity".
Definition OverridePriority : string := OverridePrefix +:+ "priority".

(** [DefaultTeams] is only compared with nil and ranged over, never
    written or appended to: it is kept as its elements, [None] being the nil
    slice.  [DefaultTags] is an [append] target and stays a slice header. *)
Record HookConfig := mkConfig {
  DefaultTeams : option (list Team);
  DefaultTags : slice;
  DefaultEntity : string;
  DefaultSource : string;
  DefaultPriority : Priority
}.

Inductive error :=
  | Errorf (msg : string)     (** [fmt.Errorf(msg)] *)
  | SDKError (msg : string).  (** an error value made by the OpsGenie SDK *)

Definition isValidPriority (priority : Priority) : bool :=
  String.eqb priority P1 ||
  String.eqb priority P2 ||
  String.eqb priority P3 ||
  String.eqb priority P4 ||
  String.eqb priority P5.

(** [Validate] has a pointer receiver and updates [*c]; the updated
    configuration is returned next to the error. *)
Definition Validate (c : HookConfig) : M (HookConfig * option error) :=
  let c :=
    match DefaultTeams c with
    | None => mkConfig (Some []) (DefaultTags c) (DefaultEntity c) (DefaultSource c) (DefaultPriority c)
    | Some _ => c
    end in
  c ← (if is_nil (DefaultTags c)
       then l ← alloc_strs [] ;
            mret (mkConfig (DefaultTeams c) (Slice (Some l) 0 0 0) (DefaultEntity c) (DefaultSource c) (DefaultPriority c))
       else mret c) ;
  let c :=
    if String.eqb (DefaultPriority c) ""
    then mkConfig (DefaultTeams c) (DefaultTags c) (DefaultEntity c) (DefaultSource c) P3
    else c in
  if negb (isValidPriority (DefaultPriority c))
  then mret (c, Some (Errorf "invalid priority"))
  else mret (c, None).

(** [alertsv2.CreateAlertRequest], the fields the hook fills.  A
    [TeamRecipient] is a [*Team]; the [Teams] slice is built locally and
    handed over, so only its elements are kept. *)
Record CreateAlertRequest := mkAlert {
  AlertMessage : string;
  Alias : string;
  Description : string;
  Teams : list loc;
  Tags : slice;
  Details : gmap string string;
  Entity : string;
  Source : string;
  AlertPriority : Priority
}.

(** [ogcli.OpsGenieClient] after [SetAPIKey] and [SetOpsGenieAPIUrl] *)
Record OpsGenieClient := mkClient { apiKey : string; opsGenieAPIUrl : string }.

(** The two semantics of the variable of a [for ... range] loop: one
    variable for the whole loop (the language before Go 1.22, and any module
    whose go.mod does not ask for 1.22), or a fresh one per iteration. *)
Inductive loopvar := PerLoop | PerIteration.

Section Hook.

(** What the Go implementation leaves open, and the OpsGenie SDK. *)

(** capacity chosen by [append] when it has to reallocate, from the old
    capacity and the number of elements needed; the language only promises a
    sufficiently large array, which [append_slice] enforces with [max] *)
Variable growcap : nat → nat → nat.

(** semantics of range-loop variables this package is compiled with *)
Variable range_var : loopvar.

(** ** Builtins *)

(** [append(s, xs...)]: in place when the capacity suffices, into a fresh
    array otherwise.  The header [s] itself is never modified. *)
Definition append_slice (s : slice) (xs : list string) : M slice :=
  let n := len s + length xs in
  if n <=? cap s then
    match base s with
    | Some l =>
        store_strs l (off s + len s) xs ;;
        mret (Slice (Some l) (off s) n (cap s))
    | None => mret (Slice None (off s) n (cap s))
    end
  else
    old ← read (λ hp, elems hp s) ;
    let c := Nat.max n (growcap (cap s) n) in
    l ← alloc_strs (old ++ xs ++ replicate (c - n) "") ;
    mret (Slice (Some l) 0 n c).

(** ** The OpsGenie SDK, opaque *)

Variable OpsGenieAlertV2Client : Type.

(** [cli.AlertV2()]: a client, or the message of the SDK's error *)
Variable AlertV2 : OpsGenieClient → OpsGenieAlertV2Client + string.

(** [client.Create(alert)]: reads the request and what it points to, and
    reports the message of the SDK's error, if any *)
Variable Create : OpsGenieAlertV2Client → CreateAlertRequest → heap → option string.

(** ** main.go: the hook *)

Record hook := mkHook {
  client : OpsGenieAlertV2Client;
  config : HookConfig
}.

Definition NewHook (apiKey endpoint : string) (config : HookConfig) : M (hook + error) :=
  if String.eqb apiKey "" then mret (inr (Errorf "api key must be specified"))
  else if String.eqb endpoint "" then mret (inr (Errorf "endpoint must be specified"))
  else
    '(config, err) ← Validate config ;
    match err with
    | Some err => mret (inr err)
    | None =>
        let cli := mkClient apiKey endpoint in
        match AlertV2 cli with
        | inr err => mret (inr (SDKError err))
        | inl client => mret (inl (mkHook client config))
        end
    end.

Definition Levels : list Level := [ErrorLevel; FatalLevel; PanicLevel].

Definition alias (entry : Entry) : string :=
  match as_string (index (Data entry) OverrideAlias) with
  | Some aliasOverride => aliasOverride
  | None =>
      let h := ChecksumIEEE (bytes (Message entry)) in
      FormatUint16 h
  end.

Definition description (entry : Entry) : string :=
  let description := Message entry in
  match as_error (index (Data entry) "error") with
  | Some errValue => description +:+ (newline +:+ errValue)
  | None => description
  end.

(** The loop of [teams].  [var] is the address of the loop variable
    [team] when the loop has a single one; each iteration assigns the
    element to [team] and appends [&team]. *)
Fixpoint range_teams (var : option loc) (ts : list Team) (teams : list loc) : M (list loc) :=
  match ts with
  | [] => mret teams
  | t :: ts' =>
      l ← match var with
          | Some l => store_team l t ;; mret l
          | None => alloc_team t
          end ;
      range_teams var ts' (teams ++ [l])
  end.

Definition teams (h : hook) (entry : Entry) : M (list loc) :=
  var ← match range_var with
        | PerLoop => l ← alloc_team (mkTeam "" "") ; mret (Some l)
        | PerIteration => mret None
        end ;
  range_teams var (default [] (DefaultTeams (config h))) [].

Definition tags (h : hook) (entry : Entry) : M slice :=
  let tags := DefaultTags (config h) in
  match as_strings (index (Data entry) OverrideTags) with
  | Some tagsOverride =>
      xs ← read (λ hp, elems hp tagsOverride) ;
      append_slice tags xs
  | None => mret tags
  end.

Definition details (entry : Entry) (hp : heap) : gmap string string :=
  map_fold
    (λ key value details,
       if HasPrefix key OverridePrefix then details
       else <[key := Sprintf_v hp value]> details)
    ∅ (Data entry).

Definition entity (h : hook) (entry : Entry) : string :=
  match as_string (index (Data entry) OverrideEntity) with
  | Some entityOverride => entityOverride
  | None => DefaultEntity (config h)
  end.

Definition source (h : hook) (entry : Entry) : string :=
  match as_string (index (Data entry) OverrideSource) with
  | Some sourceOverride => sourceOverride
  | None => DefaultSource (config h)
  end.

Definition priority (h : hook) (entry : Entry) : Priority :=
  match as_priority (index (Data entry) OverridePriority) with
  | Some priorityOverride =>
      if isValidPriority priorityOverride then priorityOverride
      else DefaultPriority (config h)
  | None => DefaultPriority (config h)
  end.

(** The composite literal of [Fire]; its fields are evaluated in the
    order they are written. *)
Definition build (h : hook) (entry : Entry) : M CreateAlertRequest :=
  let a := alias entry in
  let d := description entry in
  tm ← teams h entry ;
  tg ← tags h entry ;
  dt ← read (details entry) ;
  mret (mkAlert (Message entry) a d tm tg dt
                (entity h entry) (source h entry) (priority h entry)).

Definition Fire (h : hook) (entry : Entry) : M (option error) :=
  alert ← build h entry ;
  read (λ hp, SDKError <$> Create (client h) alert hp).

End Hook.

Arguments mkHook {_} _ _.
Arguments client {_} _.
Arguments config {_} _.
Arguments NewHook {_} _ _ _ _.
Arguments teams _ {_} _ _.
Arguments tags _ {_} _ _.
Arguments entity {_} _ _.
Arguments source {_} _ _.
Arguments priority {_} _ _.
Arguments build _ _ {_} _ _.
Arguments Fire _ _ {_} _ _ _.

(** ** Reference definitions for the alias *)

(** CRC-32 with the IEEE polynomial, bit by bit: the register starts at
    all ones, each byte is added to its low end and followed by eight
    divisions by x, the reflected polynomial being subtracted whenever a one
    falls off; the result is the complement of the register. *)
Definition crc32_shift (crc : Z) : Z :=
  if Z.odd crc then Z.lxor (crc / 2) 0xedb88320%Z else (crc / 2)%Z.

Definition crc32_byte (crc v : Z) : Z :=
  Nat.iter 8 crc32_shift (Z.lxor crc v).

Definition crc32_bitwise (data : list Z) : Z :=
  Z.lxor (fold_left crc32_byte data 0xffffffff%Z) 0xffffffff%Z.

Definition is_byte (v : Z) : Prop := (0 ≤ v < 256)%Z.

(** Reading a string of lowercase hexadecimal digits; [None] on the empty
    string and on any other character. *)
Definition hex_digit_value (c : ascii) : option Z :=
  let n := Z.of_N (N_of_ascii c) in
  if ((48 <=? n) && (n <=? 57))%Z then Some (n - 48)%Z
  else if ((97 <=? n) && (n <=? 102))%Z then Some (n - 87)%Z
  else None.

Fixpoint parse_hex_from (acc : Z) (s : string) : option Z :=
  match s with
  | EmptyString => Some acc
  | String c s' =>
      match hex_digit_value c with
      | Some d => parse_hex_from (acc * 16 + d) s'
      | None => None
      end
  end.

Definition parse_lower_hex (s : string) : option Z :=
  match s with
  | EmptyString => None
  | _ => parse_hex_from 0 s
  end.

(** ** Sample data *)

Definition sample_growcap (old n : nat) : nat := 2 * n.

Definition sample_heap : heap :=
  Heap [["infra"; ""; ""]; ["urgent"]; ["minor"]] [].

Definition sample_config : HookConfig :=
  mkConfig (Some [mkTeam "" "ops"; mkTeam "" "dev"])
           (Slice (Some 0) 0 1 3) "" "svc-a" P1.

Definition sample_hook : hook unit := mkHook tt sample_config.

Definition sample_create (c : unit) (a : CreateAlertRequest) (hp : heap) : option string :=
  None.

Definition sample_detailed : Entry :=
  mkEntry (<["error" := VError "disk at 99%"]>
            (<[OverridePriority := VPriority P2]>
              (<[OverrideAlias := VString "disk-db1"]>
                (<["host" := VString "db1"]> ∅))))
          ErrorLevel "disk full".

Definition sample_up (cli : OpsGenieClient) : unit + string := inl tt.

Definition sample_bad_priority : Entry :=
  mkEntry (<[OverridePriority := VPriority "P9"]> ∅) ErrorLevel "disk full".

Definition sample_int_priority : Entry :=
  mkEntry (<[OverridePriority := VInt 1]> ∅) ErrorLevel "disk full".

Definition sample_full_config : HookConfig :=
  mkConfig (Some [mkTeam "" "ops"]) (Slice (Some 1) 0 1 1) "db" "svc-a" P2.

Definition sample_full_hook : hook unit := mkHook tt sample_full_config.

Definition sample_no_tags : Entry :=
  mkEntry (<[OverrideTags := VStrings (Slice (Some 0) 1 0 2)]> ∅)
          ErrorLevel "disk full".

Definition sample_routed : Entry :=
  mkEntry (<[OverrideEntity := VString "db1"]>
            (<[OverrideSource := VString ""]> ∅))
          ErrorLevel "disk full".

Definition sample_plain : Entry := mkEntry ∅ ErrorLevel "disk full".

Definition sample_minor : Entry :=
  mkEntry (<[OverrideTags := VStrings (Slice (Some 2) 0 1 1)]> ∅)
          ErrorLevel "disk full".

Definition sample_urgent : Entry :=
  mkEntry (<[OverrideTags := VStrings (Slice (Some 1) 0 1 1)]> ∅)
          ErrorLevel "disk full".

(** * Properties *)

(** ** Slices and [append] *)

Lemma length_copy_into xs : ∀ arr i, length (copy_into arr i xs) = length arr.
Proof.
  induction xs as [|x xs IH]; intros arr i; simpl; [done|].
  by rewrite IH, length_insert.
Qed.

Lemma copy_into_spec xs : ∀ arr i,
  i + length xs ≤ length arr →
  copy_into arr i xs = take i arr ++ xs ++ drop (i + length xs) arr.
Proof.
  induction xs as [|x xs IH]; intros arr i Hle; simpl in *.
  - by rewrite Nat.add_0_r, take_drop.
  - rewrite IH by (rewrite length_insert; lia).
    rewrite (take_S_r _ i x) by (apply list_lookup_insert_eq; lia).
    rewrite take_insert_ge by lia.
    rewrite drop_insert_lt by lia.
    rewrite <- app_assoc. simpl.
    by replace (i + S (length xs)) with (S (i + length xs)) by lia.
Qed.

Lemma take_copy_into xs arr i n :
  n ≤ i → take n (copy_into arr i xs) = take n arr.
Proof.
  revert arr i. induction xs as [|x xs IH]; intros arr i Hn; simpl; [done|].
  rewrite IH by lia. apply take_insert_ge. lia.
Qed.

Ltac run_M :=
  unfold mbind, M_bind, mret, M_ret, read, store_strs, alloc_strs,
    alloc_team, store_team in *; simpl in *.

Lemma wf_slice_lookup hp s l :
  wf_slice hp s → base s = Some l →
  ∃ arr, strs hp !! l = Some arr ∧ off s + cap s ≤ length arr ∧ len s ≤ cap s.
Proof.
  intros [Hlen Hb] Hl. rewrite Hl in Hb. destruct Hb as (arr & ? & ?). eauto.
Qed.

Section Append.
Variable growcap : nat → nat → nat.

Lemma append_slice_elems s xs hp s' hp' :
  wf_slice hp s →
  append_slice growcap s xs hp = (s', hp') →
  elems hp' s' = elems hp s ++ xs ∧ wf_slice hp' s' ∧ tvars hp' = tvars hp.
Proof.
  intros Hwf. unfold append_slice.
  destruct (Nat.leb_spec (len s + length xs) (cap s)) as [Hfit|Hgrow].
  - destruct (base s) as [l|] eqn:Hl.
    + run_M. intros [= <- <-].
      destruct (wf_slice_lookup _ _ _ Hwf Hl) as (arr & Harr & Hcap & Hlen).
      unfold elems, array_of, wf_slice. simpl. rewrite Hl.
      rewrite list_lookup_alter_eq, !Harr. simpl.
      split; [|split; [split; [lia|]|done]].
      * rewrite copy_into_spec by lia.
        rewrite <- (take_take_drop arr (off s) (len s)), <- app_assoc.
        rewrite drop_app_length' by (rewrite length_take; lia).
        rewrite app_assoc. apply take_app_length'.
        rewrite length_app, length_take, length_drop. lia.
      * eexists. split; [done|]. by rewrite length_copy_into.
    + run_M. intros [= <- <-].
      destruct Hwf as [Hlen Hb]. rewrite Hl in Hb.
      assert (xs = []) as -> by (destruct xs; simpl in *; [done|lia]).
      unfold elems, array_of, wf_slice. simpl. rewrite Hl.
      rewrite drop_nil, !take_nil. split; [done|]. split; [|done]. split; lia.
  - run_M. intros [= <- <-].
    unfold elems at 1. unfold array_of, wf_slice. simpl.
    rewrite lookup_app_r, Nat.sub_diag by lia. simpl.
    set (old := elems hp s).
    assert (length old = len s) as Hold.
    { subst old. unfold elems. rewrite length_take, length_drop.
      destruct Hwf as [Hlen Hb]. unfold array_of.
      destruct (base s) as [l|]; [|lia].
      destruct Hb as (arr & -> & ?). simpl. lia. }
    split; [|split; [split; [lia|]|done]].
    + rewrite drop_0, app_assoc, take_app_length'; [done|].
      rewrite length_app. lia.
    + eexists. split; [done|]. rewrite !length_app, length_replicate. lia.
Qed.

Lemma append_slice_frame s xs hp s' hp' t :
  wf_slice hp t →
  (base t = base s → off t + len t ≤ off s + len s) →
  append_slice growcap s xs hp = (s', hp') →
  elems hp' t = elems hp t ∧ wf_slice hp' t.
Proof.
  intros Hwf Hdisj. unfold append_slice.
  destruct (len s + length xs <=? cap s).
  - destruct (base s) as [l|] eqn:Hl; run_M; intros [= <- <-]; [|done].
    unfold elems, array_of, wf_slice in *. simpl.
    destruct (base t) as [lt|] eqn:Hlt; [|done].
    destruct (decide (lt = l)) as [->|Hne].
    + rewrite list_lookup_alter_eq.
      destruct Hwf as [Hlen (arr & -> & Hcap)]. simpl.
      split.
      * rewrite !take_drop_commute. f_equal. apply take_copy_into.
        specialize (Hdisj eq_refl). lia.
      * split; [lia|]. eexists. split; [done|]. by rewrite length_copy_into.
    + by rewrite list_lookup_alter_ne by done.
  - run_M. intros [= <- <-].
    unfold elems, array_of, wf_slice in *. simpl.
    destruct (base t) as [lt|] eqn:Hlt; [|done].
    destruct Hwf as [Hlen (arr & Harr & Hcap)].
    rewrite lookup_app_l by (by eapply lookup_lt_Some).
    rewrite Harr. split; [done|]. split; [lia|]. eauto.
Qed.
End Append.

Lemma elems_strs hp hp' s : strs hp = strs hp' → elems hp s = elems hp' s.
Proof. intros H. unfold elems, array_of. by rewrite H. Qed.

Lemma wf_slice_strs hp hp' s : strs hp = strs hp' → wf_slice hp s → wf_slice hp' s.
Proof. intros H. unfold wf_slice. by rewrite H. Qed.

Lemma as_strings_Some m key s :
  as_strings (index m key) = Some s ↔ m !! key = Some (VStrings s).
Proof.
  unfold index. destruct (m !! key) as [[]|]; simpl; split; congruence.
Qed.

Lemma as_strings_None m key :
  as_strings (index m key) = None ↔ ∀ s, m !! key ≠ Some (VStrings s).
Proof.
  unfold index. destruct (m !! key) as [[]|]; simpl; split; try congruence.
  intros H. by destruct (H s).
Qed.

Lemma range_teams_strs var ts : ∀ acc hp,
  strs (range_teams var ts acc hp).2 = strs hp.
Proof.
  induction ts as [|t ts IH]; intros acc hp; simpl; [done|].
  destruct var as [l|]; run_M; by rewrite IH.
Qed.

(** ** The checksum and its rendering *)

Lemma land_lxor_distr_l a b c :
  Z.land (Z.lxor a b) c = Z.lxor (Z.land a c) (Z.land b c).
Proof.
  apply Z.bits_inj'. intros n _.
  rewrite !Z.lxor_spec, !Z.land_spec, Z.lxor_spec.
  by destruct (Z.testbit a n), (Z.testbit b n), (Z.testbit c n).
Qed.

Lemma lxor_bound n a b :
  (0 ≤ n → 0 ≤ a < 2 ^ n → 0 ≤ b < 2 ^ n → 0 ≤ Z.lxor a b < 2 ^ n)%Z.
Proof.
  intros Hn Ha Hb. split; [apply Z.lxor_nonneg; lia|].
  rewrite <- (Z.mod_small a (2 ^ n)), <- (Z.mod_small b (2 ^ n)) by lia.
  rewrite <- !Z.land_ones, <- land_lxor_distr_l, Z.land_ones by lia.
  apply Z.mod_pos_bound. lia.
Qed.

Lemma crc_round_shift crc : crc_round IEEE crc = crc32_shift crc.
Proof.
  unfold crc_round, crc32_shift, IEEE.
  rewrite Z.shiftr_div_pow2 by lia. change (2 ^ 1)%Z with 2%Z.
  change 1%Z with (Z.ones 1) at 1. rewrite Z.land_ones by lia.
  change (2 ^ 1)%Z with 2%Z. rewrite Zmod_odd.
  by destruct (Z.odd crc).
Qed.

Lemma crc_round_bound crc :
  (0 ≤ crc < 2 ^ 32 → 0 ≤ crc_round IEEE crc < 2 ^ 32)%Z.
Proof.
  intros Hc. unfold crc_round.
  assert (0 ≤ Z.shiftr crc 1 < 2 ^ 32)%Z.
  { rewrite Z.shiftr_div_pow2 by lia. change (2 ^ 1)%Z with 2%Z.
    split; [apply Z.div_pos; lia|]. apply Z.div_lt_upper_bound; lia. }
  destruct (_ =? _)%Z; [|done].
  apply lxor_bound; [lia|done|by vm_compute].
Qed.

Lemma crc_round_lxor a b :
  Z.land b 1 = 0%Z →
  crc_round IEEE (Z.lxor a b) = Z.lxor (crc_round IEEE a) (Z.shiftr b 1).
Proof.
  intros Hb. unfold crc_round.
  rewrite land_lxor_distr_l, Hb, Z.lxor_0_r, Z.shiftr_lxor.
  destruct (_ =? _)%Z; [|done].
  rewrite !Z.lxor_assoc. f_equal. apply Z.lxor_comm.
Qed.

Lemma land_shiftl_1 y k : (0 ≤ k → Z.land (Z.shiftl y (Z.succ k)) 1 = 0)%Z.
Proof.
  intros Hk. change 1%Z with (Z.ones 1). rewrite Z.land_ones by lia.
  rewrite Z.shiftl_mul_pow2, Z.pow_succ_r by lia.
  change (2 ^ 1)%Z with 2%Z.
  replace (y * (2 * 2 ^ k))%Z with ((y * 2 ^ k) * 2)%Z by lia.
  apply Z.mod_mul. lia.
Qed.

Lemma iter_crc_round_shiftl k : ∀ x y,
  Nat.iter k (crc_round IEEE) (Z.lxor x (Z.shiftl y (Z.of_nat k))) =
  Z.lxor (Nat.iter k (crc_round IEEE) x) y.
Proof.
  induction k as [|k IH]; intros x y.
  - by rewrite Z.shiftl_0_r.
  - rewrite !Nat.iter_succ_r, Nat2Z.inj_succ.
    rewrite crc_round_lxor by (apply land_shiftl_1; lia).
    rewrite Z.shiftr_shiftl_l by lia.
    replace (Z.succ (Z.of_nat k) - 1)%Z with (Z.of_nat k) by lia.
    apply IH.
Qed.

Lemma split_low_byte crc :
  Z.lxor (Z.land crc 255) (Z.shiftl (Z.shiftr crc 8) 8) = crc.
Proof.
  apply Z.bits_inj'. intros n Hn.
  rewrite Z.lxor_spec, Z.land_spec. change 255%Z with (Z.ones 8).
  destruct (Z.lt_ge_cases n 8) as [Hlt|Hge].
  - rewrite Z.ones_spec_low, Z.shiftl_spec_low by lia.
    by rewrite andb_true_r, xorb_false_r.
  - rewrite Z.ones_spec_high, Z.shiftl_spec_high, Z.shiftr_spec by lia.
    rewrite andb_false_r. simpl. f_equal. lia.
Qed.

Lemma byte_index_bound crc v :
  (0 ≤ v < 256 → 0 ≤ Z.lxor (Z.land crc 255) v < 256)%Z.
Proof.
  intros Hv. apply (lxor_bound 8); [lia| |done].
  change 255%Z with (Z.ones 8). rewrite Z.land_ones by lia.
  apply Z.mod_pos_bound. lia.
Qed.

Lemma IEEETable_lookup i :
  (0 ≤ i < 256)%Z → nth (Z.to_nat i) IEEETable 0%Z = table_entry IEEE i.
Proof.
  intros Hi. change IEEETable with (simpleMakeTable IEEE).
  unfold simpleMakeTable. rewrite nth_lookup, list_lookup_fmap.
  rewrite lookup_seq_lt by lia. simpl. f_equal. lia.
Qed.

Lemma simpleUpdate_step crc v :
  (0 ≤ v < 256)%Z →
  Z.lxor (nth (Z.to_nat (Z.lxor (Z.land crc 255) v)) IEEETable 0%Z)
         (Z.shiftr crc 8) = crc32_byte crc v.
Proof.
  intros Hv. rewrite IEEETable_lookup by by apply byte_index_bound.
  unfold table_entry, crc32_byte.
  rewrite <- (iter_crc_round_shiftl 8).
  replace (Z.lxor (Z.lxor (Z.land crc 255) v)
                  (Z.shiftl (Z.shiftr crc 8) (Z.of_nat 8)))
    with (Z.lxor crc v).
  - generalize (Z.lxor crc v). intros z. simpl. by rewrite !crc_round_shift.
  - rewrite <- (split_low_byte crc) at 1. change (Z.of_nat 8) with 8%Z.
    rewrite !Z.lxor_assoc. f_equal. apply Z.lxor_comm.
Qed.

Lemma bytes_are_bytes s : Forall is_byte (bytes s).
Proof.
  unfold bytes. apply Forall_fmap, Forall_forall. intros c _. unfold is_byte. simpl.
  destruct c as [[] [] [] [] [] [] [] []]; vm_compute; split; congruence.
Qed.

Lemma fold_simpleUpdate data : ∀ crc,
  Forall is_byte data →
  fold_left
    (λ crc v, Z.lxor (nth (Z.to_nat (Z.lxor (Z.land crc 255) v)) IEEETable 0%Z)
                     (Z.shiftr crc 8)) data crc
  = fold_left crc32_byte data crc.
Proof.
  induction data as [|v data IH]; intros crc Hd; cbn [fold_left]; [done|].
  inversion_clear Hd. rewrite simpleUpdate_step by done. by apply IH.
Qed.

Lemma ChecksumIEEE_bitwise data :
  Forall is_byte data → ChecksumIEEE data = crc32_bitwise data.
Proof.
  intros Hd. unfold ChecksumIEEE, simpleUpdate, crc32_bitwise, not32.
  by rewrite fold_simpleUpdate.
Qed.

Lemma crc32_shift_bound crc :
  (0 ≤ crc < 2 ^ 32 → 0 ≤ crc32_shift crc < 2 ^ 32)%Z.
Proof. rewrite <- crc_round_shift. apply crc_round_bound. Qed.

Lemma crc32_byte_bound crc v :
  (0 ≤ crc < 2 ^ 32)%Z → is_byte v → (0 ≤ crc32_byte crc v < 2 ^ 32)%Z.
Proof.
  intros Hc Hv. unfold crc32_byte, is_byte in *.
  assert (0 ≤ Z.lxor crc v < 2 ^ 32)%Z as Hx by (apply lxor_bound; lia).
  revert Hx. generalize (Z.lxor crc v). intros z Hz. simpl.
  by do 8 apply crc32_shift_bound.
Qed.

Lemma crc32_bitwise_bound data :
  Forall is_byte data → (0 ≤ crc32_bitwise data < 2 ^ 32)%Z.
Proof.
  intros Hd. unfold crc32_bitwise.
  apply lxor_bound; [lia| |by vm_compute].
  assert (0 ≤ 0xffffffff < 2 ^ 32)%Z as Hinit by (by vm_compute).
  revert Hinit. generalize 0xffffffff%Z.
  induction Hd as [|v data Hv Hd IH]; intros crc Hc; simpl; [done|].
  apply IH. by apply crc32_byte_bound.
Qed.

Lemma hex_digit_value_digit d :
  (0 ≤ d < 16)%Z → hex_digit_value (digit d) = Some d.
Proof.
  intros Hd.
  assert (d ∈ [0; 1; 2; 3; 4; 5; 6; 7; 8; 9; 10; 11; 12; 13; 14; 15]%Z) as Hin.
  { rewrite !elem_of_cons. lia. }
  rewrite !elem_of_cons, elem_of_nil in Hin.
  repeat (destruct Hin as [->|Hin]; [by vm_compute|]). done.
Qed.

Lemma split_low_nibble u :
  (Z.shiftr u 4 * 16 + Z.land u 15 = u)%Z.
Proof.
  rewrite Z.shiftr_div_pow2 by lia. change 15%Z with (Z.ones 4).
  rewrite Z.land_ones by lia. change (2 ^ 4)%Z with 16%Z.
  pose proof (Z.div_mod u 16). lia.
Qed.

Lemma parse_formatBits16 fuel : ∀ u a,
  (0 ≤ u < 16 ^ Z.of_nat fuel)%Z →
  parse_hex_from 0 (formatBits16 fuel u a) = parse_hex_from u a.
Proof.
  induction fuel as [|fuel IH]; intros u a Hu.
  - simpl in Hu. assert (u = 0%Z) as -> by lia. done.
  - cbn [formatBits16]. destruct (Z.leb_spec 16 u) as [Hge|Hlt].
    + rewrite IH.
      * cbn [parse_hex_from]. rewrite hex_digit_value_digit.
        -- by rewrite split_low_nibble.
        -- change 15%Z with (Z.ones 4). rewrite Z.land_ones by lia.
           apply Z.mod_pos_bound. lia.
      * rewrite Z.shiftr_div_pow2 by lia. change (2 ^ 4)%Z with 16%Z.
        rewrite Nat2Z.inj_succ, Z.pow_succ_r in Hu by lia.
        split; [apply Z.div_pos; lia|]. apply Z.div_lt_upper_bound; lia.
    + cbn [parse_hex_from]. rewrite hex_digit_value_digit by lia.
      by rewrite Z.mul_0_l, Z.add_0_l.
Qed.

Lemma formatBits16_nonempty fuel u a :
  formatBits16 (S fuel) u a ≠ "".
Proof.
  revert u a. induction fuel as [|fuel IH]; intros u a.
  - simpl. by destruct (16 <=? u)%Z.
  - cbn [formatBits16]. destruct (16 <=? u)%Z; [apply IH|done].
Qed.

Lemma parse_FormatUint16 u :
  (0 ≤ u < 2 ^ 64)%Z → parse_lower_hex (FormatUint16 u) = Some u.
Proof.
  intros Hu. unfold parse_lower_hex, FormatUint16.
  pose proof (formatBits16_nonempty 64 u "") as Hne.
  destruct (formatBits16 65 u "") as [|c s] eqn:Hs; [done|].
  rewrite <- Hs, parse_formatBits16; [done|].
  assert (2 ^ 64 ≤ 16 ^ Z.of_nat 65)%Z by (by vm_compute). lia.
Qed.

(** ** Priorities *)

Lemma isValidPriority_spec p :
  isValidPriority p = true ↔ p ∈ [P1; P2; P3; P4; P5].
Proof.
  unfold isValidPriority. rewrite !orb_true_iff, !String.eqb_eq.
  rewrite !elem_of_cons, elem_of_nil. tauto.
Qed.

(** [Validate] in closed form *)
Lemma Validate_run c hp :
  Validate c hp =
    let tg :=
      if is_nil (DefaultTags c)
      then (Slice (Some (length (strs hp))) 0 0 0,
            Heap (strs hp ++ [[]]) (tvars hp))
      else (DefaultTags c, hp) in
    let pr := if String.eqb (DefaultPriority c) "" then P3 else DefaultPriority c in
    (mkConfig (Some (default [] (DefaultTeams c))) tg.1
              (DefaultEntity c) (DefaultSource c) pr,
     if isValidPriority pr then None else Some (Errorf "invalid priority"),
     tg.2).
Proof.
  destruct c as [[ts|] [[l|] o n k] en so pr]; unfold Validate, is_nil; run_M;
    destruct (String.eqb pr ""); simpl; try done;
    by destruct (isValidPriority pr).
Qed.

Lemma invalid_priority_iff pr :
  isValidPriority (if String.eqb pr "" then P3 else pr) = false ↔
  pr ≠ "" ∧ pr ∉ [P1; P2; P3; P4; P5].
Proof.
  rewrite <- isValidPriority_spec.
  destruct (String.eqb_spec pr "") as [->|Hne].
  - split; [discriminate|by intros [? _]].
  - destruct (isValidPriority pr); split; try done; by intros [_ []].
Qed.

(** When [Validate] returns an error. *)
Lemma Validate_sanitizes_cases (c : HookConfig) (hp : heap) :
  ((Validate c hp).1.2 = None ∨
   (Validate c hp).1.2 = Some (Errorf "invalid priority")) ∧
  ((Validate c hp).1.2 ≠ None ↔
     DefaultPriority c ≠ "" ∧ DefaultPriority c ∉ [P1; P2; P3; P4; P5]).
Proof.
  rewrite Validate_run. simpl.
  pose proof (invalid_priority_iff (DefaultPriority c)) as Hbad.
  destruct (isValidPriority _).
  - split; [by left|]. split; [done|]. intros H. by apply Hbad in H.
  - split; [by right|]. split; [intros _; by apply Hbad|done].
Qed.

(** ** The loop of [teams] *)

Lemma range_teams_shared l ts : ∀ acc hp,
  l < length (tvars hp) →
  let r := range_teams (Some l) ts acc hp in
  r.1 = acc ++ replicate (length ts) l ∧
  tvars r.2 !! l = from_option Some (tvars hp !! l) (last ts) ∧
  length (tvars r.2) = length (tvars hp).
Proof.
  induction ts as [|t ts IH]; intros acc hp Hl; simpl.
  - by rewrite app_nil_r.
  - run_M.
    destruct (IH (acc ++ [l]) (Heap (strs hp) (<[l:=t]> (tvars hp))))
      as (Hr & Hv & Hn); [simpl; by rewrite length_insert|].
    simpl in *. rewrite Hr, Hv, Hn.
    rewrite <- app_assoc, length_insert, list_lookup_insert_eq by done.
    split; [done|]. split; [|done].
    destruct ts as [|t0 ts']; [done|].
    change (last (t :: t0 :: ts')) with (last (t0 :: ts')).
    destruct (last (t0 :: ts')) eqn:Hlast; [done|].
    by apply last_None in Hlast.
Qed.

Lemma range_teams_fresh ts : ∀ acc hp,
  range_teams None ts acc hp =
    (acc ++ seq (length (tvars hp)) (length ts), Heap (strs hp) (tvars hp ++ ts)).
Proof.
  induction ts as [|t ts IH]; intros acc hp; simpl.
  - rewrite !app_nil_r. by destruct hp.
  - run_M. rewrite IH. simpl.
    rewrite <- !app_assoc, length_app. simpl.
    by rewrite Nat.add_1_r.
Qed.

(** ** Prefixes and [details] *)

Lemma substring_0_app p t : substring 0 (String.length p) (p +:+ t) = p.
Proof. induction p as [|c p IH]; simpl; [by destruct t|by rewrite IH]. Qed.

Lemma HasPrefix_spec s p : HasPrefix s p = true ↔ ∃ t, s = p +:+ t.
Proof.
  unfold HasPrefix. rewrite andb_true_iff, Nat.leb_le, String.eqb_eq. split.
  - intros [_ Hsub]. revert s Hsub.
    induction p as [|c p IH]; intros s Hsub; simpl in *; [by exists s|].
    destruct s as [|c' s]; [done|]. simpl in Hsub.
    injection Hsub as -> Hsub. destruct (IH s Hsub) as [t ->]. by exists t.
  - intros [t ->]. split; [|apply substring_0_app].
    induction p as [|c p IH]; simpl; lia.
Qed.

Lemma details_lookup e hp key :
  details e hp !! key =
    if HasPrefix key OverridePrefix then None else Sprintf_v hp <$> Data e !! key.
Proof.
  unfold details. revert key.
  apply (map_fold_weak_ind
    (λ r (m : gmap string value), ∀ key : string,
       r !! key = if HasPrefix key OverridePrefix then None
                  else Sprintf_v hp <$> m !! key)).
  - intros key. rewrite !lookup_empty. by destruct (HasPrefix _ _).
  - intros i x m r Hi IH key.
    destruct (decide (i = key)) as [->|Hne].
    + destruct (HasPrefix key OverridePrefix) eqn:Hp.
      * rewrite IH, Hp. done.
      * by rewrite !lookup_insert_eq.
    + destruct (HasPrefix i OverridePrefix); rewrite ?lookup_insert_ne by done;
        rewrite IH; by rewrite ?lookup_insert_ne by done.
Qed.

Section Properties.
Variable growcap : nat → nat → nat.
Variable range_var : loopvar.
Variable OpsGenieAlertV2Client : Type.
Variable AlertV2 : OpsGenieClient → OpsGenieAlertV2Client + string.
Variable Create : OpsGenieAlertV2Client → CreateAlertRequest → heap → option string.

Local Abbreviation hook := (hook OpsGenieAlertV2Client).

Lemma teams_strs (h : hook) e hp : strs (teams range_var h e hp).2 = strs hp.
Proof.
  unfold teams. destruct range_var; run_M.
  - by rewrite range_teams_strs.
  - by rewrite range_teams_strs.
Qed.

Lemma tags_override (h : hook) e ov hp :
  wf_slice hp (DefaultTags (config h)) →
  Data e !! OverrideTags = Some (VStrings ov) →
  let '(t, hp') := tags growcap h e hp in
  elems hp' t = elems hp (DefaultTags (config h)) ++ elems hp ov ∧
  elems hp' (DefaultTags (config h)) = elems hp (DefaultTags (config h)) ∧
  wf_slice hp' (DefaultTags (config h)) ∧
  tvars hp' = tvars hp.
Proof.
  intros Hwf Hov%as_strings_Some. unfold tags. rewrite Hov. run_M.
  destruct (append_slice _ _ _ _) as [t hp'] eqn:Happ.
  destruct (append_slice_elems _ _ _ _ _ _ Hwf Happ) as (He & _ & Ht).
  destruct (append_slice_frame _ _ _ _ _ _ _ Hwf (λ _, Nat.le_refl _) Happ) as [Hf Hwf'].
  done.
Qed.

Lemma tags_default (h : hook) e hp :
  (∀ s, Data e !! OverrideTags ≠ Some (VStrings s)) →
  tags growcap h e hp = (DefaultTags (config h), hp).
Proof.
  intros Hno%as_strings_None. unfold tags. by rewrite Hno.
Qed.

Lemma build_unfold (h : hook) e hp :
  build growcap range_var h e hp =
    let '(tm, hp1) := teams range_var h e hp in
    let '(tg, hp2) := tags growcap h e hp1 in
    (mkAlert (Message e) (alias e) (description e) tm tg (details e hp2)
       (entity h e) (source h e) (priority h e), hp2).
Proof.
  unfold build. run_M.
  destruct (teams range_var h e hp) as [tm hp1].
  by destruct (tags growcap h e hp1) as [tg hp2].
Qed.

Lemma Fire_heap (h : hook) e hp : (Fire growcap range_var Create h e hp).2 = (build growcap range_var h e hp).2.
Proof.
  unfold Fire. run_M. by destruct (build growcap range_var h e hp).
Qed.

Lemma build_tags (h : hook) e hp :
  Tags (build growcap range_var h e hp).1 = (tags growcap h e (teams range_var h e hp).2).1 ∧
  (build growcap range_var h e hp).2 = (tags growcap h e (teams range_var h e hp).2).2.
Proof.
  rewrite build_unfold. destruct (teams range_var h e hp) as [tm hp1]. simpl.
  by destruct (tags growcap h e hp1) as [tg hp2].
Qed.

(** What one call of [build] (so one call of [Fire]) does to the default
    tags, whatever the entry holds. *)
Lemma build_keeps_default_tags (h : hook) e hp :
  wf_slice hp (DefaultTags (config h)) →
  elems (build growcap range_var h e hp).2 (DefaultTags (config h)) = elems hp (DefaultTags (config h)) ∧
  wf_slice (build growcap range_var h e hp).2 (DefaultTags (config h)).
Proof.
  intros Hwf. destruct (build_tags h e hp) as [_ ->].
  pose proof (teams_strs h e hp) as Hstrs.
  destruct (teams range_var h e hp) as [tm hp1]. simpl in *.
  apply (wf_slice_strs _ hp1) in Hwf; [|done].
  rewrite <- (elems_strs hp1 hp) by done.
  unfold tags.
  destruct (as_strings _) as [ov|] eqn:Hov; [|done]. run_M.
  destruct (append_slice _ _ _ _) as [t hp2] eqn:Happ. simpl.
  by apply (append_slice_frame _ _ _ _ _ _ _ Hwf (λ _, Nat.le_refl _) Happ).
Qed.

Lemma build_fields (h : hook) e hp :
  let alert := (build growcap range_var h e hp).1 in
  AlertMessage alert = Message e ∧
  Alias alert = alias e ∧
  Description alert = description e ∧
  Teams alert = (teams range_var h e hp).1 ∧
  Details alert = details e (build growcap range_var h e hp).2 ∧
  Entity alert = entity h e ∧
  Source alert = source h e ∧
  AlertPriority alert = priority h e.
Proof.
  rewrite build_unfold. destruct (teams range_var h e hp) as [tm hp1]. simpl.
  by destruct (tags growcap h e hp1) as [tg hp2].
Qed.

(** C1. Two successive calls: the first entry carries [ogh:tags] as a
    [[]string], the second carries no such field.  The tags of the second
    request are the slice [DefaultTags] itself and hold exactly the elements
    the default list had before the first call, both for [Fire] followed by the
    construction of the second request and for the method [tags] alone. *)
Theorem tags_override_isolation (h : hook) (e1 e2 : Entry) (ov : slice) (hp : heap) :
  wf_slice hp (DefaultTags (config h)) →
  Data e1 !! OverrideTags = Some (VStrings ov) →
  (∀ s, Data e2 !! OverrideTags ≠ Some (VStrings s)) →
  let second := build growcap range_var h e2 (Fire growcap range_var Create h e1 hp).2 in
  let second_tags := tags growcap h e2 (tags growcap h e1 hp).2 in
  Tags second.1 = DefaultTags (config h) ∧
  elems second.2 (Tags second.1) = elems hp (DefaultTags (config h)) ∧
  second_tags.1 = DefaultTags (config h) ∧
  elems second_tags.2 second_tags.1 = elems hp (DefaultTags (config h)).
Proof.
  intros Hwf Hov Hno second second_tags. subst second second_tags.
  rewrite Fire_heap.
  destruct (build_keeps_default_tags h e1 hp Hwf) as [He1 Hwf1].
  destruct (build_tags h e2 (build growcap range_var h e1 hp).2) as [-> ->].
  rewrite !tags_default by done. simpl.
  pose proof (tags_override h e1 ov hp Hwf Hov) as Ht.
  destruct (tags growcap h e1 hp) as [t1 hp1]. simpl.
  destruct Ht as (_ & -> & _).
  rewrite (elems_strs _ (build growcap range_var h e1 hp).2) by apply teams_strs.
  by rewrite He1.
Qed.

(** C4. The tags of the request are the default tags followed by the
    elements of [ogh:tags] when the entry carries that field as a [[]string],
    and the default tags (the very slice of the configuration) when it does
    not. *)
Theorem tags_append_override (h : hook) (e : Entry) (hp : heap) :
  wf_slice hp (DefaultTags (config h)) →
  let alert := (build growcap range_var h e hp).1 in
  let hp' := (build growcap range_var h e hp).2 in
  (∀ ov, Data e !! OverrideTags = Some (VStrings ov) →
     elems hp' (Tags alert) = elems hp (DefaultTags (config h)) ++ elems hp ov) ∧
  ((∀ s, Data e !! OverrideTags ≠ Some (VStrings s)) →
     Tags alert = DefaultTags (config h) ∧
     elems hp' (Tags alert) = elems hp (DefaultTags (config h))).
Proof.
  intros Hwf alert hp'. subst alert hp'.
  destruct (build_tags h e hp) as [-> ->].
  pose proof (teams_strs h e hp) as Hstrs.
  destruct (teams range_var h e hp) as [tm hp1]. simpl in *.
  apply (wf_slice_strs _ hp1) in Hwf; [|done].
  rewrite <- !(elems_strs hp1 hp) by done.
  split.
  - intros ov Hov. rewrite <- (elems_strs hp1 hp) by done.
    pose proof (tags_override h e ov hp1 Hwf Hov) as Ht.
    destruct (tags growcap h e hp1) as [t hp2]. simpl. by destruct Ht as (-> & _).
  - intros Hno. by rewrite tags_default.
Qed.

(** C5. The details of the request hold, for every field of the entry
    whose key does not start with ["ogh:"], the [%v] rendering of its value,
    and nothing else: no key of the details starts with ["ogh:"]. *)
Theorem details_without_overrides (h : hook) (e : Entry) (hp : heap) :
  let alert := (build growcap range_var h e hp).1 in
  let hp' := (build growcap range_var h e hp).2 in
  (∀ key, Details alert !! key =
            if HasPrefix key OverridePrefix then None
            else Sprintf_v hp' <$> Data e !! key) ∧
  (∀ key rest, Details alert !! (OverridePrefix +:+ rest) = None ∧
     (is_Some (Details alert !! key) → key ≠ OverridePrefix +:+ rest)) ∧
  (∀ key, is_Some (Details alert !! key) ↔
     is_Some (Data e !! key) ∧ ¬ ∃ rest, key = OverridePrefix +:+ rest).
Proof.
  intros alert hp'. subst alert hp'.
  destruct (build_fields h e hp) as (_ & _ & _ & _ & -> & _).
  set (hp' := (build growcap range_var h e hp).2).
  assert (∀ rest, details e hp' !! (OverridePrefix +:+ rest) = None) as Hnone.
  { intros rest. rewrite details_lookup.
    by rewrite (proj2 (HasPrefix_spec _ _) (ex_intro _ rest eq_refl)). }
  split; [intros key; apply details_lookup|]. split.
  - intros key rest. split; [apply Hnone|].
    intros [x Hx] ->. by rewrite Hnone in Hx.
  - intros key. rewrite details_lookup.
    destruct (HasPrefix key OverridePrefix) eqn:Hp.
    + apply HasPrefix_spec in Hp. split; [by intros [? ?]|]. by intros [_ []].
    + rewrite fmap_is_Some. split; [|by intros [? _]].
      intros Hs. split; [done|]. intros Hex%HasPrefix_spec. congruence.
Qed.

(** C8. The description of the request is the message, followed by a
    newline and the text of the error when the field ["error"] holds an error
    value; it is the message alone when the field is absent or holds
    anything else (nil included). *)
Theorem description_appends_error (h : hook) (e : Entry) (hp : heap) :
  let alert := (build growcap range_var h e hp).1 in
  (∀ msg, Data e !! "error" = Some (VError msg) →
     Description alert = Message e +:+ newline +:+ msg) ∧
  ((∀ msg, Data e !! "error" ≠ Some (VError msg)) →
     Description alert = Message e).
Proof.
  intros alert. subst alert.
  destruct (build_fields h e hp) as (_ & _ & -> & _).
  unfold description, index. split.
  - intros msg ->. done.
  - intros Hno. destruct (Data e !! "error") as [[]|]; try done.
    by destruct (Hno msg).
Qed.

(** C10. A field ["error"] of the entry is kept in the details, rendered
    with [%v]; an error value attached to the entry therefore shows both in
    the description and in the details. *)
Theorem error_field_in_details (h : hook) (e : Entry) (hp : heap) (v : value) :
  Data e !! "error" = Some v →
  let alert := (build growcap range_var h e hp).1 in
  let hp' := (build growcap range_var h e hp).2 in
  Details alert !! "error" = Some (Sprintf_v hp' v) ∧
  (∀ msg, v = VError msg →
     Details alert !! "error" = Some msg ∧
     Description alert = Message e +:+ newline +:+ msg).
Proof.
  intros Hv alert hp'. subst alert hp'.
  destruct (build_fields h e hp) as (_ & _ & -> & _ & -> & _).
  rewrite details_lookup, Hv. simpl. split; [done|].
  intros msg ->. split; [done|].
  unfold description, index. by rewrite Hv.
Qed.

(** C3. The priority of the request is the value of [ogh:priority] when
    that field holds an [alertsv2.Priority] among P1..P5, and the default
    priority of the configuration in every other case: field absent, of
    another type, or holding another priority.  [priority] is a total
    function into [Priority] with no error result, and the only error [Fire]
    returns is the one of the SDK's [Create]. *)
Theorem priority_override_or_default (h : hook) (e : Entry) (hp : heap) :
  let alert := (build growcap range_var h e hp).1 in
  (∀ p, Data e !! OverridePriority = Some (VPriority p) →
        p ∈ [P1; P2; P3; P4; P5] →
        AlertPriority alert = p) ∧
  ((∀ p, Data e !! OverridePriority = Some (VPriority p) →
         p ∉ [P1; P2; P3; P4; P5]) →
   AlertPriority alert = DefaultPriority (config h)) ∧
  (Fire growcap range_var Create h e hp).1 =
    SDKError <$> Create (client h) alert (build growcap range_var h e hp).2.
Proof.
  intros alert. subst alert.
  split; [|split; [|unfold Fire; run_M; by destruct (build growcap range_var h e hp)]];
    destruct (build_fields h e hp) as (_ & _ & _ & _ & _ & _ & _ & ->);
    unfold priority, index.
  - intros p -> Hp%isValidPriority_spec. simpl. by rewrite Hp.
  - intros Hno. destruct (Data e !! OverridePriority) as [[]|]; try done.
    simpl. destruct (isValidPriority p) eqn:Hp; [|done].
    apply isValidPriority_spec in Hp. by destruct (Hno p).
Qed.

(** C2. The alias of the request is the value of [ogh:alias] when that
    field holds a string.  Otherwise it is [FormatUint] at base 16 of
    [ChecksumIEEE] of the bytes of the message: a non-empty string of
    lowercase hexadecimal digits that reads as the bitwise CRC-32 of those
    bytes.  Two entries without the override and with the same message get
    the same alias. *)
Theorem alias_override_or_checksum (h : hook) (e : Entry) (hp : heap) :
  let alert := (build growcap range_var h e hp).1 in
  (∀ s, Data e !! OverrideAlias = Some (VString s) → Alias alert = s) ∧
  ((∀ s, Data e !! OverrideAlias ≠ Some (VString s)) →
     Alias alert = FormatUint16 (ChecksumIEEE (bytes (Message e))) ∧
     parse_lower_hex (Alias alert) = Some (crc32_bitwise (bytes (Message e))) ∧
     ∀ e' hp',
       (∀ s, Data e' !! OverrideAlias ≠ Some (VString s)) →
       Message e' = Message e →
       Alias (build growcap range_var h e' hp').1 = Alias alert).
Proof.
  intros alert. subst alert.
  destruct (build_fields h e hp) as (_ & -> & _).
  assert (∀ e0 : Entry, (∀ s, Data e0 !! OverrideAlias ≠ Some (VString s)) →
            alias e0 = FormatUint16 (ChecksumIEEE (bytes (Message e0)))) as Hsum.
  { intros e0 Hno. unfold alias, index.
    destruct (Data e0 !! OverrideAlias) as [[]|]; try done. by destruct (Hno s). }
  split.
  - intros s Hs. unfold alias, index. by rewrite Hs.
  - intros Hno. rewrite (Hsum e Hno). split; [done|]. split.
    + rewrite ChecksumIEEE_bitwise by apply bytes_are_bytes.
      apply parse_FormatUint16.
      pose proof (crc32_bitwise_bound _ (bytes_are_bytes (Message e))). lia.
    + intros e' hp' Hno' Hmsg.
      destruct (build_fields h e' hp') as (_ & -> & _).
      by rewrite (Hsum e' Hno'), Hmsg.
Qed.

(** C6. After [Validate] has returned no error, [DefaultTeams] and
    [DefaultTags] are not nil (empty when they were nil, untouched otherwise)
    and [DefaultPriority] is one of P1..P5, P3 standing for the empty
    priority.  [Validate] returns an error, always ["invalid priority"],
    exactly when the priority was set to something else than P1..P5. *)
Theorem Validate_sanitizes (c : HookConfig) (hp : heap) :
  let c' := (Validate c hp).1.1 in
  let err := (Validate c hp).1.2 in
  let hp' := (Validate c hp).2 in
  (err = None ∨ err = Some (Errorf "invalid priority")) ∧
  (err ≠ None ↔
     DefaultPriority c ≠ "" ∧ DefaultPriority c ∉ [P1; P2; P3; P4; P5]) ∧
  (err = None →
     DefaultTeams c' ≠ None ∧
     (DefaultTeams c = None → DefaultTeams c' = Some []) ∧
     is_nil (DefaultTags c') = false ∧
     (is_nil (DefaultTags c) = true →
        len (DefaultTags c') = 0 ∧ elems hp' (DefaultTags c') = []) ∧
     DefaultPriority c' ∈ [P1; P2; P3; P4; P5] ∧
     (DefaultPriority c = "" → DefaultPriority c' = P3)) ∧
  ((∀ ts, DefaultTeams c = Some ts → DefaultTeams c' = Some ts) ∧
   (is_nil (DefaultTags c) = false → DefaultTags c' = DefaultTags c ∧ hp' = hp) ∧
   (DefaultPriority c ≠ "" → DefaultPriority c' = DefaultPriority c)).
Proof.
  rewrite Validate_run. simpl.
  pose proof (invalid_priority_iff (DefaultPriority c)) as Hbad.
  assert (DefaultPriority c ≠ "" →
          (if String.eqb (DefaultPriority c) "" then P3 else DefaultPriority c)
          = DefaultPriority c) as Hset
    by (intros ?; by destruct (String.eqb_spec (DefaultPriority c) "")).
  assert (DefaultPriority c = "" →
          (if String.eqb (DefaultPriority c) "" then P3 else DefaultPriority c)
          = P3) as Hunset by (by intros ->).
  assert (is_nil (Slice (Some (length (strs hp))) 0 0 0) = false ∧
          elems (Heap (strs hp ++ [[]]) (tvars hp))
                (Slice (Some (length (strs hp))) 0 0 0) = []) as [Hnew Hempty].
  { split; [done|]. unfold elems, array_of. simpl.
    by rewrite lookup_app_r, Nat.sub_diag by lia. }
  destruct (isValidPriority _) eqn:Hv;
    [apply isValidPriority_spec in Hv|];
    destruct (is_nil (DefaultTags c)) eqn:Hnil; simpl;
    destruct (DefaultTeams c) as [ts|] eqn:Hts; simpl.
  all: repeat split; try done; try (by left); try (by right);
    try (intros; congruence).
  all: try (intros H; by apply Hbad in H).
  all: by apply Hbad.
Qed.

(** The outcomes of [NewHook] for any SDK constructor: the three errors of
    its own checks in their order, then what [cli.AlertV2()] returns, an
    error being handed on and a client ending up in the hook next to the
    validated configuration. *)
Lemma NewHook_outcomes (apiKey endpoint : string) (c : HookConfig) (hp : heap) :
  let r := (NewHook AlertV2 apiKey endpoint c hp).1 in
  (r = inr (Errorf "api key must be specified") ↔ apiKey = "") ∧
  (apiKey ≠ "" → endpoint = "" →
     r = inr (Errorf "endpoint must be specified")) ∧
  (apiKey ≠ "" → endpoint ≠ "" →
   DefaultPriority c ≠ "" → DefaultPriority c ∉ [P1; P2; P3; P4; P5] →
     (Validate c hp).1.2 = Some (Errorf "invalid priority") ∧
     r = inr (Errorf "invalid priority")) ∧
  (apiKey ≠ "" → endpoint ≠ "" →
   (DefaultPriority c = "" ∨ DefaultPriority c ∈ [P1; P2; P3; P4; P5]) →
     match AlertV2 (mkClient apiKey endpoint) with
     | inl client => r = inl (mkHook client (Validate c hp).1.1)
     | inr msg => r = inr (SDKError msg)
     end).
Proof.
  intros r. subst r. unfold NewHook.
  destruct (String.eqb_spec apiKey "") as [->|Hkey]; [by repeat split|].
  destruct (String.eqb_spec endpoint "") as [->|Hurl].
  { split; [split; [intros [=]|done]|]. split; [done|].
    split; by intros _ []. }
  run_M. rewrite !Validate_run. simpl.
  pose proof (invalid_priority_iff (DefaultPriority c)) as Hbad.
  destruct (isValidPriority _) eqn:Hv; simpl.
  - split; [split; [|done]|split; [done|split]].
    + destruct (AlertV2 _); intros [=].
    + intros _ _ Hset Hno. by assert (true = false) by (by apply Hbad).
    + intros _ _ _. by destruct (AlertV2 _).
  - split; [split; [intros [=]|done]|]. split; [done|]. split; [done|].
    intros _ _ [Hunset|Hin]; destruct (proj1 Hbad eq_refl); done.
Qed.

Lemma priority_valid_or_not (c : HookConfig) :
  (DefaultPriority c = "" ∨ DefaultPriority c ∈ [P1; P2; P3; P4; P5]) ∨
  (DefaultPriority c ≠ "" ∧ DefaultPriority c ∉ [P1; P2; P3; P4; P5]).
Proof.
  destruct (String.eqb_spec (DefaultPriority c) "") as [|Hset]; [by left; left|].
  destruct (isValidPriority (DefaultPriority c)) eqn:Hv.
  - left. right. by apply isValidPriority_spec.
  - right. split; [done|]. rewrite <- isValidPriority_spec. congruence.
Qed.

(** C7. The SDK's [cli.AlertV2()] always returns a client: that is the
    hypothesis.  Then [NewHook] returns the error ["api key must be
    specified"] exactly when the key is empty, ["endpoint must be specified"]
    when the key is not empty and the endpoint is, and the error of
    [Validate] when both are non-empty and the default priority is invalid;
    in every other case it returns a hook, which holds the SDK's client for
    this key and endpoint and the validated configuration.  It returns no
    other error than these three. *)
Theorem NewHook_fails_or_returns_hook (apiKey endpoint : string)
    (c : HookConfig) (hp : heap) :
  (∀ cli, ∃ client, AlertV2 cli = inl client) →
  let r := (NewHook AlertV2 apiKey endpoint c hp).1 in
  (r = inr (Errorf "api key must be specified") ↔ apiKey = "") ∧
  (apiKey ≠ "" → endpoint = "" →
     r = inr (Errorf "endpoint must be specified")) ∧
  (apiKey ≠ "" → endpoint ≠ "" →
   DefaultPriority c ≠ "" → DefaultPriority c ∉ [P1; P2; P3; P4; P5] →
     (Validate c hp).1.2 = Some (Errorf "invalid priority") ∧
     r = inr (Errorf "invalid priority")) ∧
  (apiKey ≠ "" → endpoint ≠ "" →
   (DefaultPriority c = "" ∨ DefaultPriority c ∈ [P1; P2; P3; P4; P5]) →
     ∃ client, AlertV2 (mkClient apiKey endpoint) = inl client ∧
               r = inl (mkHook client (Validate c hp).1.1) ∧
               (Validate c hp).1.2 = None) ∧
  (∀ err, r = inr err →
     err ∈ [Errorf "api key must be specified";
            Errorf "endpoint must be specified";
            Errorf "invalid priority"]).
Proof.
  intros Hsdk r.
  destruct (NewHook_outcomes apiKey endpoint c hp) as (Hkey & Hurl & Hbad & Hok).
  fold r in Hkey, Hurl, Hbad, Hok.
  assert (apiKey ≠ "" → endpoint ≠ "" →
          (DefaultPriority c = "" ∨ DefaultPriority c ∈ [P1; P2; P3; P4; P5]) →
          ∃ client, AlertV2 (mkClient apiKey endpoint) = inl client ∧
                    r = inl (mkHook client (Validate c hp).1.1) ∧
                    (Validate c hp).1.2 = None) as Hhook.
  { intros Hk Hu Hgood. specialize (Hok Hk Hu Hgood).
    destruct (Hsdk (mkClient apiKey endpoint)) as [client Hcl].
    rewrite Hcl in Hok. exists client. split; [done|]. split; [done|].
    destruct (Validate_sanitizes_cases c hp) as [Hnone Hiff].
    destruct ((Validate c hp).1.2) as [err|] eqn:Herr; [|done].
    destruct (proj1 Hiff) as [Hset Hno]; [done|]. by destruct Hgood. }
  split; [done|]. split; [done|]. split; [done|]. split; [done|].
  intros err Herr. rewrite !elem_of_cons.
  destruct (String.eqb_spec apiKey "") as [Hk|Hk].
  { left. apply Hkey in Hk. congruence. }
  destruct (String.eqb_spec endpoint "") as [Hu|Hu].
  { right. left. specialize (Hurl Hk Hu). congruence. }
  destruct (priority_valid_or_not c) as [Hgood|[Hset Hno]].
  - destruct (Hhook Hk Hu Hgood) as (client & _ & Hr & _). congruence.
  - right. right. left. destruct (Hbad Hk Hu Hset Hno) as [_ Hr]. congruence.
Qed.

End Properties.

Lemma tags_override_isolation_witness :
  let second :=
    build sample_growcap PerLoop sample_hook sample_plain
      (Fire sample_growcap PerLoop sample_create sample_hook sample_urgent sample_heap).2 in
  let second_tags :=
    tags sample_growcap sample_hook sample_plain
      (tags sample_growcap sample_hook sample_urgent sample_heap).2 in
  Tags second.1 = DefaultTags sample_config ∧
  elems second.2 (Tags second.1) = elems sample_heap (DefaultTags sample_config) ∧
  second_tags.1 = DefaultTags sample_config ∧
  elems second_tags.2 second_tags.1 = elems sample_heap (DefaultTags sample_config).
Proof.
  apply (tags_override_isolation sample_growcap PerLoop unit sample_create
           sample_hook sample_urgent sample_plain (Slice (Some 1) 0 1 1) sample_heap).
  - split; [simpl; lia|]. simpl. eexists. split; [reflexivity|simpl; lia].
  - vm_compute. reflexivity.
  - intros s. vm_compute. discriminate.
Defined.

Lemma tags_append_override_witness :
  (let alert := (build sample_growcap PerLoop sample_hook sample_urgent sample_heap).1 in
   let hp' := (build sample_growcap PerLoop sample_hook sample_urgent sample_heap).2 in
   elems hp' (Tags alert) = ["infra"; "urgent"]) ∧
  (let alert := (build sample_growcap PerLoop sample_hook sample_plain sample_heap).1 in
   let hp' := (build sample_growcap PerLoop sample_hook sample_plain sample_heap).2 in
   Tags alert = DefaultTags sample_config ∧ elems hp' (Tags alert) = ["infra"]).
Proof.
  assert (wf_slice sample_heap (DefaultTags (config sample_hook))) as Hwf.
  { split; [simpl; lia|]. simpl. eexists. split; [reflexivity|simpl; lia]. }
  split.
  - apply (proj1 (tags_append_override sample_growcap PerLoop unit
                    sample_hook sample_urgent sample_heap Hwf)
                 (Slice (Some 1) 0 1 1)).
    vm_compute. reflexivity.
  - apply (proj2 (tags_append_override sample_growcap PerLoop unit
                    sample_hook sample_plain sample_heap Hwf)).
    intros s. vm_compute. discriminate.
Defined.

(** ** [teams] and the variable of its loop *)

Section Teams.
Variable OpsGenieAlertV2Client : Type.

Local Abbreviation hook := (hook OpsGenieAlertV2Client).

Lemma teams_ignores_entry rv (h : hook) e1 e2 hp :
  teams rv h e1 hp = teams rv h e2 hp.
Proof. done. Qed.

(** With one variable per iteration the recipients denote the default
    teams, in order. *)
Lemma teams_per_iteration (h : hook) e hp :
  let ts := default [] (DefaultTeams (config h)) in
  let r := teams PerIteration h e hp in
  length r.1 = length ts ∧
  ∀ i t, ts !! i = Some t →
         ∃ l, r.1 !! i = Some l ∧ tvars r.2 !! l = Some t.
Proof.
  intros ts r. subst r. unfold teams. run_M.
  rewrite range_teams_fresh. fold ts. simpl.
  split; [by rewrite length_seq|].
  intros i t Hi. exists (length (tvars hp) + i).
  pose proof (lookup_lt_Some _ _ _ Hi).
  rewrite lookup_seq_lt by done. split; [done|].
  by rewrite lookup_app_r, Nat.add_comm, Nat.add_sub by lia.
Qed.

(** X20. With one variable for the whole loop every recipient is the
    address of that variable, which holds the last default team once the loop
    is over. *)
Lemma teams_per_loop (h : hook) e hp :
  let ts := default [] (DefaultTeams (config h)) in
  let r := teams PerLoop h e hp in
  length r.1 = length ts ∧
  ∀ i l, r.1 !! i = Some l →
         l = length (tvars hp) ∧
         tvars r.2 !! l = Some (default (mkTeam "" "") (last ts)).
Proof.
  intros ts r. subst r. unfold teams. run_M. fold ts.
  destruct (range_teams_shared (length (tvars hp)) ts []
              (Heap (strs hp) (tvars hp ++ [mkTeam "" ""])))
    as (Hr & Hv & _); [simpl; rewrite length_app; simpl; lia|].
  simpl in *. rewrite Hr, length_replicate. split; [done|].
  intros i l [-> _]%lookup_replicate. split; [done|].
  rewrite Hv, lookup_app_r, Nat.sub_diag by lia. simpl.
  by destruct (last ts).
Qed.

End Teams.

(** C9.  [teams] at a configuration with the two default teams "ops" and
    "dev", compiled with one loop variable per loop: the list has two
    recipients, both are the address of the loop variable, and both denote
    "dev"; the first default team "ops" is not among them. *)
Theorem teams_repeat_last_team :
  let r := teams PerLoop sample_hook sample_plain sample_heap in
  DefaultTeams sample_config = Some [mkTeam "" "ops"; mkTeam "" "dev"] ∧
  r.1 = [0; 0] ∧
  (λ l, tvars r.2 !! l) <$> r.1 =
    [Some (mkTeam "" "dev"); Some (mkTeam "" "dev")].
Proof. by vm_compute. Qed.

(** ** The statements on the sample data *)

(** Where the default array has spare capacity, two overrides in a row
    land in the same cells: the tags returned for the first entry read
    differently once the second entry went through, while the default tags
    still read the same. *)
Example tags_share_spare_capacity :
  let first := tags sample_growcap sample_hook sample_urgent sample_heap in
  let second := tags sample_growcap sample_hook sample_minor first.2 in
  elems first.2 first.1 = ["infra"; "urgent"] ∧
  elems second.2 first.1 = ["infra"; "minor"] ∧
  elems second.2 (DefaultTags sample_config) = ["infra"].
Proof. by vm_compute. Qed.

Example alias_check_value :
  FormatUint16 (ChecksumIEEE (bytes "123456789")) = "cbf43926".
Proof. by vm_compute. Qed.

Example alias_disk_full : alias sample_plain = "976b6e01".
Proof. by vm_compute. Qed.

Example description_disk_full :
  description sample_detailed = "disk full" +:+ newline +:+ "disk at 99%".
Proof. by vm_compute. Qed.

Lemma alias_override_or_checksum_witness :
  Alias (build sample_growcap PerLoop sample_hook sample_detailed sample_heap).1
    = "disk-db1" ∧
  Alias (build sample_growcap PerLoop sample_hook sample_plain sample_heap).1
    = FormatUint16 (ChecksumIEEE (bytes "disk full")).
Proof.
  split.
  - apply (proj1 (alias_override_or_checksum sample_growcap PerLoop unit
                    sample_hook sample_detailed sample_heap)).
    vm_compute. reflexivity.
  - refine (proj1 (proj2 (alias_override_or_checksum sample_growcap PerLoop unit
                    sample_hook sample_plain sample_heap) _)).
    intros s. vm_compute. discriminate.
Defined.

Lemma priority_override_or_default_witness :
  AlertPriority (build sample_growcap PerLoop sample_hook sample_detailed sample_heap).1
    = P2 ∧
  AlertPriority (build sample_growcap PerLoop sample_hook sample_bad_priority sample_heap).1
    = P1 ∧
  AlertPriority (build sample_growcap PerLoop sample_hook sample_int_priority sample_heap).1
    = P1.
Proof.
  split; [|split].
  - apply (proj1 (priority_override_or_default sample_growcap PerLoop unit
                    sample_create sample_hook sample_detailed sample_heap)).
    + vm_compute. reflexivity.
    + rewrite !elem_of_cons. right. left. reflexivity.
  - apply (proj1 (proj2 (priority_override_or_default sample_growcap PerLoop unit
                    sample_create sample_hook sample_bad_priority sample_heap))).
    intros p Hp. vm_compute in Hp. injection Hp as <-.
    rewrite !elem_of_cons, elem_of_nil. vm_compute. intuition discriminate.
  - apply (proj1 (proj2 (priority_override_or_default sample_growcap PerLoop unit
                    sample_create sample_hook sample_int_priority sample_heap))).
    intros p Hp. vm_compute in Hp. discriminate.
Defined.

Lemma details_without_overrides_witness :
  let alert :=
    (build sample_growcap PerLoop sample_hook sample_detailed sample_heap).1 in
  (Details alert !! OverridePriority = None ∧
   (is_Some (Details alert !! "host") → "host" ≠ OverridePriority)) ∧
  (is_Some (Details alert !! "host") ↔
     is_Some (Data sample_detailed !! "host") ∧
     ¬ ∃ rest, "host" = OverridePrefix +:+ rest).
Proof.
  split.
  - apply (proj1 (proj2 (details_without_overrides sample_growcap PerLoop unit
                    sample_hook sample_detailed sample_heap)) "host" "priority").
  - apply (proj2 (proj2 (details_without_overrides sample_growcap PerLoop unit
                    sample_hook sample_detailed sample_heap)) "host").
Defined.

Lemma description_appends_error_witness :
  Description (build sample_growcap PerLoop sample_hook sample_detailed sample_heap).1
    = "disk full" +:+ newline +:+ "disk at 99%" ∧
  Description (build sample_growcap PerLoop sample_hook sample_plain sample_heap).1
    = "disk full".
Proof.
  split.
  - apply (proj1 (description_appends_error sample_growcap PerLoop unit
                    sample_hook sample_detailed sample_heap)).
    vm_compute. reflexivity.
  - apply (proj2 (description_appends_error sample_growcap PerLoop unit
                    sample_hook sample_plain sample_heap)).
    intros msg. vm_compute. discriminate.
Defined.

Lemma error_field_in_details_witness :
  let alert :=
    (build sample_growcap PerLoop sample_hook sample_detailed sample_heap).1 in
  Details alert !! "error" = Some "disk at 99%" ∧
  Description alert = "disk full" +:+ newline +:+ "disk at 99%".
Proof.
  apply (proj2 (error_field_in_details sample_growcap PerLoop unit
                  sample_hook sample_detailed sample_heap (VError "disk at 99%")
                  ltac:(vm_compute; reflexivity)) "disk at 99%").
  reflexivity.
Defined.

Lemma Validate_sanitizes_witness :
  let c := mkConfig None nil_slice "" "" "" in
  let c' := (Validate c sample_heap).1.1 in
  DefaultTeams c' = Some [] ∧
  is_nil (DefaultTags c') = false ∧
  elems (Validate c sample_heap).2 (DefaultTags c') = [] ∧
  DefaultPriority c' = P3.
Proof.
  intros c c'.
  destruct (Validate_sanitizes c sample_heap) as (_ & _ & Hok & _).
  destruct Hok as (_ & Hteams & Hnil & Htags & _ & Hprio);
    [vm_compute; reflexivity|].
  split; [apply Hteams; reflexivity|]. split; [exact Hnil|].
  split; [apply Htags; reflexivity|apply Hprio; reflexivity].
Defined.

Lemma NewHook_fails_or_returns_hook_witness :
  (NewHook sample_up "" EndpointEU sample_config sample_heap).1
    = inr (Errorf "api key must be specified") ∧
  (NewHook sample_up "my-api-token" "" sample_config sample_heap).1
    = inr (Errorf "endpoint must be specified") ∧
  (NewHook sample_up "my-api-token" EndpointEU
     (mkConfig None nil_slice "" "" "P9") sample_heap).1
    = inr (Errorf "invalid priority") ∧
  (∃ client,
     sample_up (mkClient "my-api-token" EndpointEU) = inl client ∧
     (NewHook sample_up "my-api-token" EndpointEU sample_config sample_heap).1
       = inl (mkHook client (Validate sample_config sample_heap).1.1) ∧
     (Validate sample_config sample_heap).1.2 = None).
Proof.
  assert (∀ cli, ∃ client, sample_up cli = inl client) as Hsdk.
  { intros cli. exists tt. reflexivity. }
  split; [|split; [|split]].
  - apply (proj1 (NewHook_fails_or_returns_hook unit sample_up "" EndpointEU
                    sample_config sample_heap Hsdk)).
    reflexivity.
  - apply (proj1 (proj2 (NewHook_fails_or_returns_hook unit sample_up
                    "my-api-token" "" sample_config sample_heap Hsdk)));
      [discriminate|reflexivity].
  - apply (proj1 (proj2 (proj2 (NewHook_fails_or_returns_hook unit sample_up
                    "my-api-token" EndpointEU
                    (mkConfig None nil_slice "" "" "P9") sample_heap Hsdk))));
      try discriminate.
    rewrite !elem_of_cons, elem_of_nil. vm_compute. intuition discriminate.
  - apply (proj1 (proj2 (proj2 (proj2 (NewHook_fails_or_returns_hook unit
                    sample_up "my-api-token" EndpointEU sample_config
                    sample_heap Hsdk)))));
      try discriminate.
    right. rewrite !elem_of_cons. left. reflexivity.
Defined.

(** * Further properties *)

(** ** Fields resolved from the entry and the configuration *)

Section Fields.
Variable growcap : nat → nat → nat.
Variable range_var : loopvar.
Variable OpsGenieAlertV2Client : Type.

Local Abbreviation hook := (hook OpsGenieAlertV2Client).

(** X1. The entity of the request is the string under [ogh:entity], the
    empty string included; a field of any other type, or no field, leaves
    the default entity of the configuration. *)
Theorem entity_override_or_default (h : hook) (e : Entry) (hp : heap) :
  let alert := (build growcap range_var h e hp).1 in
  (∀ s, Data e !! OverrideEntity = Some (VString s) → Entity alert = s) ∧
  ((∀ s, Data e !! OverrideEntity ≠ Some (VString s)) →
     Entity alert = DefaultEntity (config h)).
Proof.
  intros alert. subst alert.
  destruct (build_fields growcap range_var _ h e hp) as (_ & _ & _ & _ & _ & -> & _).
  unfold entity, index. split.
  - by intros s ->.
  - intros Hno. destruct (Data e !! OverrideEntity) as [[]|]; try done.
    by destruct (Hno s).
Qed.

(** X2. The same for the source and [ogh:source]. *)
Theorem source_override_or_default (h : hook) (e : Entry) (hp : heap) :
  let alert := (build growcap range_var h e hp).1 in
  (∀ s, Data e !! OverrideSource = Some (VString s) → Source alert = s) ∧
  ((∀ s, Data e !! OverrideSource ≠ Some (VString s)) →
     Source alert = DefaultSource (config h)).
Proof.
  intros alert. subst alert.
  destruct (build_fields growcap range_var _ h e hp)
    as (_ & _ & _ & _ & _ & _ & -> & _).
  unfold source, index. split.
  - by intros s ->.
  - intros Hno. destruct (Data e !! OverrideSource) as [[]|]; try done.
    by destruct (Hno s).
Qed.

(** X3. With a valid default priority the priority of every request is
    one of P1..P5, whatever the entry carries under [ogh:priority]. *)
Theorem priority_always_valid (h : hook) (e : Entry) (hp : heap) :
  DefaultPriority (config h) ∈ [P1; P2; P3; P4; P5] →
  AlertPriority (build growcap range_var h e hp).1 ∈ [P1; P2; P3; P4; P5].
Proof.
  intros Hdef.
  destruct (build_fields growcap range_var _ h e hp)
    as (_ & _ & _ & _ & _ & _ & _ & ->).
  unfold priority. destruct (as_priority _) as [p|]; [|done].
  destruct (isValidPriority p) eqn:Hp; [|done].
  by apply isValidPriority_spec.
Qed.

End Fields.

(** ** [Validate] and [NewHook] on the heap *)

Lemma validated_priority_set pr :
  isValidPriority pr = true → String.eqb pr "" = false.
Proof. intros Hv. by destruct (String.eqb_spec pr "") as [->|]. Qed.

(** X4. A configuration that [Validate] accepted is left as it is by a
    second [Validate], which accepts it again and allocates nothing. *)
Theorem Validate_idempotent (c : HookConfig) (hp : heap) :
  (Validate c hp).1.2 = None →
  Validate (Validate c hp).1.1 (Validate c hp).2
    = ((Validate c hp).1.1, None, (Validate c hp).2).
Proof.
  rewrite (Validate_run c hp). cbn zeta. cbn [fst snd].
  set (pr := if String.eqb (DefaultPriority c) "" then P3 else DefaultPriority c).
  destruct (isValidPriority pr) eqn:Hv; [intros _|done].
  rewrite Validate_run. cbn zeta.
  cbn [DefaultTeams DefaultTags DefaultEntity DefaultSource DefaultPriority].
  fold pr. rewrite (validated_priority_set pr Hv), Hv.
  assert (is_nil
    (if is_nil (DefaultTags c)
     then (Slice (Some (length (strs hp))) 0 0 0,
           Heap (strs hp ++ [[]]) (tvars hp))
     else (DefaultTags c, hp)).1 = false) as ->.
  { by destruct (is_nil (DefaultTags c)) eqn:Hnil. }
  done.
Qed.

(** X5. [Validate] writes to no array and no variable of the heap it is
    given, keeps the entity and the source, and keeps a non-nil tag slice
    together with what it holds; the slice it makes for nil tags is
    well-formed and empty. *)
Theorem Validate_frame (c : HookConfig) (hp : heap) :
  wf_slice hp (DefaultTags c) →
  let c' := (Validate c hp).1.1 in
  let hp' := (Validate c hp).2 in
  strs hp `prefix_of` strs hp' ∧
  tvars hp' = tvars hp ∧
  DefaultEntity c' = DefaultEntity c ∧
  DefaultSource c' = DefaultSource c ∧
  wf_slice hp' (DefaultTags c') ∧
  elems hp' (DefaultTags c') = elems hp (DefaultTags c).
Proof.
  intros Hwf c' hp'. subst c' hp'. rewrite Validate_run. cbn zeta. simpl.
  destruct (is_nil (DefaultTags c)) eqn:Hnil; simpl.
  - split; [by apply prefix_app_r|]. repeat (split; [done|]).
    unfold is_nil in Hnil. destruct Hwf as [Hlen Hb].
    destruct (base (DefaultTags c)) eqn:Hbase; [done|].
    split.
    + split; [simpl; lia|]. simpl. exists [].
      split; [by rewrite lookup_app_r, Nat.sub_diag by lia|simpl; lia].
    + unfold elems, array_of. simpl. rewrite Hbase.
      rewrite lookup_app_r, Nat.sub_diag by lia. simpl.
      by rewrite drop_nil, take_nil.
  - split; [reflexivity|]. by repeat (split; [done|]).
Qed.

Section Construction.
Variable OpsGenieAlertV2Client : Type.
Variable AlertV2 : OpsGenieClient → OpsGenieAlertV2Client + string.

(** X6. A hook that [NewHook] returned was made from a non-empty key and
    endpoint, holds the client the SDK made for them, and holds a
    configuration that is ready for [Fire]: teams and tags are not nil, the
    tags are a well-formed slice with the elements they had, the priority is
    one of P1..P5, entity and source are the given ones. *)
Theorem NewHook_hook_ready (apiKey endpoint : string) (c : HookConfig)
    (hp hp' : heap) (h : hook OpsGenieAlertV2Client) :
  wf_slice hp (DefaultTags c) →
  NewHook AlertV2 apiKey endpoint c hp = (inl h, hp') →
  apiKey ≠ "" ∧ endpoint ≠ "" ∧
  AlertV2 (mkClient apiKey endpoint) = inl (client h) ∧
  DefaultTeams (config h) = Some (default [] (DefaultTeams c)) ∧
  is_nil (DefaultTags (config h)) = false ∧
  wf_slice hp' (DefaultTags (config h)) ∧
  elems hp' (DefaultTags (config h)) = elems hp (DefaultTags c) ∧
  DefaultPriority (config h) ∈ [P1; P2; P3; P4; P5] ∧
  DefaultEntity (config h) = DefaultEntity c ∧
  DefaultSource (config h) = DefaultSource c.
Proof.
  intros Hwf. unfold NewHook.
  destruct (String.eqb_spec apiKey "") as [|Hkey]; [intros [=]|].
  destruct (String.eqb_spec endpoint "") as [|Hurl]; [intros [=]|].
  run_M.
  pose proof (Validate_run c hp) as Hrun.
  destruct (Validate c hp) as [[c' err] hp1] eqn:Hval.
  cbn zeta in Hrun. injection Hrun as Hc Herr Hhp.
  destruct err as [err|]; [intros [=]|].
  destruct (AlertV2 _) as [cl|msg] eqn:Hcl; intros [= <- <-]. simpl.
  destruct (isValidPriority _) eqn:Hv in Herr; [|done].
  apply isValidPriority_spec in Hv.
  subst c' hp1. simpl.
  split; [done|]. split; [done|]. split; [done|]. split; [done|].
  destruct (is_nil (DefaultTags c)) eqn:Hnil; simpl.
  - split; [done|]. unfold is_nil in Hnil. destruct Hwf as [Hlen Hb].
    destruct (base (DefaultTags c)) eqn:Hbase; [done|].
    split; [|split; [|done]].
    + split; [simpl; lia|]. simpl. exists [].
      split; [by rewrite lookup_app_r, Nat.sub_diag by lia|simpl; lia].
    + unfold elems, array_of. simpl. rewrite Hbase.
      rewrite lookup_app_r, Nat.sub_diag by lia. simpl.
      by rewrite drop_nil, take_nil.
  - done.
Qed.

End Construction.

(** ** What [tags], [teams] and [Fire] do to the heap *)

Lemma range_teams_take var ts n : ∀ acc hp,
  (∀ l, var = Some l → n ≤ l) →
  n ≤ length (tvars hp) →
  take n (tvars (range_teams var ts acc hp).2) = take n (tvars hp) ∧
  length (tvars hp) ≤ length (tvars (range_teams var ts acc hp).2).
Proof.
  induction ts as [|t ts IH]; intros acc hp Hvar Hn; simpl; [done|].
  destruct var as [l|]; run_M.
  - destruct (IH (acc ++ [l]) (Heap (strs hp) (<[l:=t]> (tvars hp))))
      as [Ht Hl]; [done|simpl; by rewrite length_insert|].
    simpl in *. rewrite Ht, length_insert in *.
    split; [|done]. apply take_insert_ge. by apply Hvar.
  - destruct (IH (acc ++ [length (tvars hp)]) (Heap (strs hp) (tvars hp ++ [t])))
      as [Ht Hl]; [done|simpl; rewrite length_app; lia|].
    simpl in *. rewrite Ht, length_app in *. simpl in *.
    split; [|lia]. by rewrite take_app_le.
Qed.

Lemma range_teams_addresses var ts : ∀ acc hp n,
  (∀ l, var = Some l → n ≤ l < length (tvars hp)) →
  n ≤ length (tvars hp) →
  Forall (λ l, n ≤ l < length (tvars hp)) acc →
  Forall (λ l, n ≤ l < length (tvars (range_teams var ts acc hp).2))
         (range_teams var ts acc hp).1.
Proof.
  induction ts as [|t ts IH]; intros acc hp n Hvar Hn Hacc; simpl; [done|].
  destruct var as [l|]; run_M.
  - apply IH; simpl; rewrite ?length_insert; [done|done|].
    apply Forall_app. split; [done|]. apply Forall_singleton. by apply Hvar.
  - apply IH; simpl; rewrite ?length_app; simpl; [done|lia|].
    apply Forall_app. split.
    + eapply Forall_impl; [done|]. simpl. lia.
    + apply Forall_singleton. lia.
Qed.

Lemma take_length_prefix {A} (l1 l2 : list A) :
  take (length l1) l2 = l1 → l1 `prefix_of` l2.
Proof. intros H. exists (drop (length l1) l2). by rewrite <- H at 1; rewrite take_drop. Qed.

Section HeapEffects.
Variable growcap : nat → nat → nat.
Variable range_var : loopvar.
Variable OpsGenieAlertV2Client : Type.
Variable Create : OpsGenieAlertV2Client → CreateAlertRequest → heap → option string.

Local Abbreviation hook := (hook OpsGenieAlertV2Client).

(** Every cell [append] leaves alone. *)
Lemma append_slice_heap s xs hp :
  wf_slice hp s →
  let hp' := (append_slice growcap s xs hp).2 in
  tvars hp' = tvars hp ∧
  length (strs hp) ≤ length (strs hp') ∧
  ∀ l arr, strs hp !! l = Some arr →
    ∃ arr', strs hp' !! l = Some arr' ∧ length arr' = length arr ∧
            (base s ≠ Some l → arr' = arr) ∧
            take (off s + len s) arr' = take (off s + len s) arr.
Proof.
  intros Hwf hp'. subst hp'. unfold append_slice.
  destruct (len s + length xs <=? cap s).
  - destruct (base s) as [l0|] eqn:Hl; run_M.
    + split; [done|]. rewrite length_alter. split; [done|].
      intros l arr Harr. destruct (decide (l0 = l)) as [->|Hne].
      * rewrite list_lookup_alter_eq, Harr. simpl. eexists. split; [done|].
        rewrite length_copy_into. split; [done|]. split; [done|].
        by apply take_copy_into.
      * rewrite list_lookup_alter_ne by done. exists arr.
        repeat split; try done.
    + split; [done|]. split; [done|]. intros l arr Harr. exists arr.
      by repeat split.
  - run_M. split; [done|]. rewrite length_app. split; [lia|].
    intros l arr Harr. exists arr.
    rewrite lookup_app_l by (by eapply lookup_lt_Some). by repeat split.
Qed.

(** X7. An [ogh:tags] override of length zero changes nothing: [tags]
    returns the default slice itself and leaves the heap as it was. *)
Theorem tags_empty_override (h : hook) (e : Entry) (ov : slice) (hp : heap) :
  wf_slice hp (DefaultTags (config h)) →
  Data e !! OverrideTags = Some (VStrings ov) →
  len ov = 0 →
  tags growcap h e hp = (DefaultTags (config h), hp).
Proof.
  intros [Hlen Hb] Hov%as_strings_Some Hzero. unfold tags. rewrite Hov. run_M.
  unfold elems. rewrite Hzero, take_0. unfold append_slice. simpl.
  rewrite Nat.add_0_r.
  destruct (Nat.leb_spec (len (DefaultTags (config h))) (cap (DefaultTags (config h))));
    [|lia].
  destruct (DefaultTags (config h)) as [[l|] o n k]; run_M; [|done].
  rewrite list_alter_id by done. by destruct hp.
Qed.

(** X8. When the default tags fill their array ([len = cap], as for a
    slice literal) a non-empty override goes to a fresh array that starts
    with the default tags followed by the override; no array that existed
    is written to. *)
Theorem tags_full_default_reallocates (h : hook) (e : Entry) (ov : slice) (hp : heap) :
  wf_slice hp (DefaultTags (config h)) →
  cap (DefaultTags (config h)) = len (DefaultTags (config h)) →
  Data e !! OverrideTags = Some (VStrings ov) →
  elems hp ov ≠ [] →
  let r := tags growcap h e hp in
  base r.1 = Some (length (strs hp)) ∧ off r.1 = 0 ∧
  tvars r.2 = tvars hp ∧
  ∃ spare, strs r.2 =
    strs hp ++ [elems hp (DefaultTags (config h)) ++ elems hp ov ++ spare].
Proof.
  intros Hwf Hfull Hov%as_strings_Some Hne r. subst r.
  unfold tags. rewrite Hov. run_M. unfold append_slice.
  destruct (Nat.leb_spec (len (DefaultTags (config h)) + length (elems hp ov))
              (cap (DefaultTags (config h)))) as [Hfit|_].
  { destruct (elems hp ov); [done|simpl in *; lia]. }
  run_M. repeat split; try done. eauto.
Qed.

(** X9. For every entry the tags of the request are a well-formed slice
    whose elements start with the default tags: an override adds tags and
    never removes or replaces one. *)
Theorem tags_keep_defaults (h : hook) (e : Entry) (hp : heap) :
  wf_slice hp (DefaultTags (config h)) →
  let r := build growcap range_var h e hp in
  wf_slice r.2 (Tags r.1) ∧
  len (DefaultTags (config h)) ≤ len (Tags r.1) ∧
  elems hp (DefaultTags (config h)) `prefix_of` elems r.2 (Tags r.1).
Proof.
  intros Hwf r. subst r.
  destruct (build_tags growcap range_var _ h e hp) as [-> ->].
  pose proof (teams_strs range_var _ h e hp) as Hstrs.
  destruct (teams range_var h e hp) as [tm hp1]. simpl in *.
  apply (wf_slice_strs _ hp1) in Hwf; [|done].
  rewrite <- (elems_strs hp1 hp) by done.
  unfold tags. destruct (as_strings _) as [ov|]; run_M; [|done].
  destruct (append_slice _ _ _ _) as [t hp2] eqn:Happ. simpl.
  destruct (append_slice_elems _ _ _ _ _ _ Hwf Happ) as (-> & Hwf2 & _).
  split; [done|]. split; [|by apply prefix_app_r].
  revert Happ. unfold append_slice.
  destruct (_ <=? _); [destruct (base _)|]; run_M; intros [= <- _]; simpl; lia.
Qed.

(** X10. [teams] touches no string array and no [Team] variable that
    existed before the call: every recipient it returns is the address of a
    variable allocated by the call. *)
Theorem teams_recipients_fresh (h : hook) (e : Entry) (hp : heap) :
  let r := teams range_var h e hp in
  strs r.2 = strs hp ∧
  tvars hp `prefix_of` tvars r.2 ∧
  Forall (λ l, length (tvars hp) ≤ l < length (tvars r.2)) r.1.
Proof.
  intros r. subst r. split; [apply teams_strs|].
  unfold teams. set (ts := default [] (DefaultTeams (config h))).
  destruct range_var; run_M.
  - set (hp1 := {| strs := strs hp; tvars := tvars hp ++ [mkTeam "" ""] |}).
    destruct (range_teams_take (Some (length (tvars hp))) ts (length (tvars hp)) [] hp1)
      as [Ht _]; [by intros l [= <-]|simpl; rewrite length_app; lia|].
    split.
    + apply take_length_prefix. rewrite Ht. simpl. by rewrite take_app_length.
    + apply range_teams_addresses; simpl; rewrite ?length_app; simpl; try lia; [|done].
      intros l [= <-]. lia.
  - destruct (range_teams_take None ts (length (tvars hp)) [] hp) as [Ht _];
      [done|lia|].
    split.
    + apply take_length_prefix. rewrite Ht. by rewrite firstn_all.
    + apply range_teams_addresses; [done|lia|done].
Qed.

(** X11. One call of [Fire] never writes to a [Team] variable that
    existed, never shrinks or frees an array, and writes to no array cell
    except, in the array of the default tags, the cells past the end of the
    default tags. *)
Theorem Fire_frame (h : hook) (e : Entry) (hp : heap) :
  wf_slice hp (DefaultTags (config h)) →
  let hp' := (Fire growcap range_var Create h e hp).2 in
  let d := DefaultTags (config h) in
  tvars hp `prefix_of` tvars hp' ∧
  ∀ l arr, strs hp !! l = Some arr →
    ∃ arr', strs hp' !! l = Some arr' ∧ length arr' = length arr ∧
            (base d ≠ Some l → arr' = arr) ∧
            take (off d + len d) arr' = take (off d + len d) arr.
Proof.
  intros Hwf hp' d. subst hp' d. rewrite Fire_heap.
  destruct (build_tags growcap range_var _ h e hp) as [_ ->].
  destruct (teams_recipients_fresh h e hp) as (Hstrs & Htv & _).
  destruct (teams range_var h e hp) as [tm hp1]. simpl in *.
  apply (wf_slice_strs _ hp1) in Hwf; [|done].
  unfold tags. destruct (as_strings _) as [ov|]; run_M.
  - destruct (append_slice_heap (DefaultTags (config h)) (elems hp1 ov) hp1 Hwf)
      as (Htv2 & _ & Harr).
    rewrite Htv2. split; [done|]. intros l arr Hl. apply Harr. by rewrite Hstrs.
  - split; [done|]. intros l arr Hl. exists arr. rewrite Hstrs. by repeat split.
Qed.

(** X12. For an entry without a [[]string] under [ogh:tags], [Fire]
    leaves every string array of the heap as it was. *)
Theorem Fire_without_tags_override (h : hook) (e : Entry) (hp : heap) :
  (∀ s, Data e !! OverrideTags ≠ Some (VStrings s)) →
  strs (Fire growcap range_var Create h e hp).2 = strs hp.
Proof.
  intros Hno. rewrite Fire_heap.
  destruct (build_tags growcap range_var _ h e hp) as [_ ->].
  rewrite tags_default by done. simpl. apply teams_strs.
Qed.

End HeapEffects.

(** ** The shape of the alias *)

Lemma formatBits16_length fuel : ∀ k u a,
  1 ≤ k ≤ fuel → (0 ≤ u < 16 ^ Z.of_nat k)%Z →
  String.length a < String.length (formatBits16 fuel u a) ≤ String.length a + k.
Proof.
  induction fuel as [|fuel IH]; intros k u a Hk Hu; [lia|].
  cbn [formatBits16]. destruct (Z.leb_spec 16 u) as [Hge|Hlt]; [|simpl; lia].
  destruct k as [|[|k]]; [lia|simpl in Hu; lia|].
  destruct (IH (S k) (Z.shiftr u 4) (String (digit (Z.land u 15)) a)) as [Hlo Hhi].
  - lia.
  - rewrite Z.shiftr_div_pow2 by lia. change (2 ^ 4)%Z with 16%Z.
    rewrite (Nat2Z.inj_succ (S k)), Z.pow_succ_r in Hu by lia.
    split; [apply Z.div_pos; lia|]. apply Z.div_lt_upper_bound; lia.
  - simpl in *. lia.
Qed.

Lemma parse_hex_from_digits s : ∀ acc v,
  parse_hex_from acc s = Some v →
  Forall (λ c, is_Some (hex_digit_value c)) (list_ascii_of_string s).
Proof.
  induction s as [|c s IH]; intros acc v Hp; simpl in *; [done|].
  destruct (hex_digit_value c) as [d|] eqn:Hd; [|done].
  constructor; [by rewrite Hd|by eapply IH].
Qed.

Lemma alias_fallback e :
  (∀ s, Data e !! OverrideAlias ≠ Some (VString s)) →
  alias e = FormatUint16 (ChecksumIEEE (bytes (Message e))).
Proof.
  intros Hno. unfold alias, index.
  destruct (Data e !! OverrideAlias) as [[]|]; try done. by destruct (Hno s).
Qed.

Lemma checksum_message_bound m :
  (0 ≤ ChecksumIEEE (bytes m) < 2 ^ 32)%Z.
Proof.
  rewrite ChecksumIEEE_bitwise by apply bytes_are_bytes.
  apply crc32_bitwise_bound, bytes_are_bytes.
Qed.

(** X13. Without a string under [ogh:alias], the alias has between one
    and eight characters, each of them one of [0-9a-f]. *)
Theorem alias_fallback_shape (e : Entry) :
  (∀ s, Data e !! OverrideAlias ≠ Some (VString s)) →
  1 ≤ String.length (alias e) ≤ 8 ∧
  Forall (λ c, is_Some (hex_digit_value c)) (list_ascii_of_string (alias e)).
Proof.
  intros Hno. rewrite (alias_fallback e Hno).
  pose proof (checksum_message_bound (Message e)) as Hb. split.
  - unfold FormatUint16.
    assert (16 ^ Z.of_nat 8 = 2 ^ 32)%Z as H16 by (by vm_compute).
    generalize dependent (ChecksumIEEE (bytes (Message e))). intros u Hu.
    destruct (formatBits16_length 65 8 u "") as [Hlo Hhi]; [lia|lia|].
    change (String.length "") with 0 in *. lia.
  - assert (parse_lower_hex (FormatUint16 (ChecksumIEEE (bytes (Message e))))
            = Some (ChecksumIEEE (bytes (Message e)))) as Hp
      by (apply parse_FormatUint16; lia).
    unfold parse_lower_hex in Hp.
    destruct (FormatUint16 _) as [|c s] eqn:Hs; [done|].
    by eapply parse_hex_from_digits.
Qed.

(** X14. Two entries without a string under [ogh:alias] get the same
    alias exactly when their messages have the same CRC-32: the rendering
    loses nothing, so aliases collide only where checksums do. *)
Theorem alias_collision_iff (e1 e2 : Entry) :
  (∀ s, Data e1 !! OverrideAlias ≠ Some (VString s)) →
  (∀ s, Data e2 !! OverrideAlias ≠ Some (VString s)) →
  alias e1 = alias e2 ↔
  crc32_bitwise (bytes (Message e1)) = crc32_bitwise (bytes (Message e2)).
Proof.
  intros H1 H2. rewrite (alias_fallback e1 H1), (alias_fallback e2 H2).
  rewrite !ChecksumIEEE_bitwise by apply bytes_are_bytes.
  split; [|by intros ->].
  intros Heq.
  pose proof (crc32_bitwise_bound _ (bytes_are_bytes (Message e1))) as Hb1.
  pose proof (crc32_bitwise_bound _ (bytes_are_bytes (Message e2))) as Hb2.
  assert (Some (crc32_bitwise (bytes (Message e1)))
          = Some (crc32_bitwise (bytes (Message e2)))) as [=]; [|done].
  rewrite <- !parse_FormatUint16 by lia. by rewrite Heq.
Qed.

(** ** Descriptions and details *)

Lemma HasPrefix_app s t : HasPrefix (s +:+ t) s = true.
Proof. apply HasPrefix_spec. by exists t. Qed.

Lemma string_app_nil_r s : s +:+ "" = s.
Proof.
  induction s as [|c s IH]; [done|].
  change (String c (s +:+ "") = String c s). by f_equal.
Qed.

Lemma length_string_app s t :
  String.length (s +:+ t) = String.length s + String.length t.
Proof.
  induction s as [|c s IH]; [done|].
  change (S (String.length (s +:+ t)) = S (String.length s + String.length t)).
  by f_equal.
Qed.

(** X15. The description always starts with the message (in the sense of
    [strings.HasPrefix]), and is the message alone exactly when the field
    ["error"] holds no error value. *)
Theorem description_starts_with_message (e : Entry) :
  HasPrefix (description e) (Message e) = true ∧
  (description e = Message e ↔ ∀ msg, Data e !! "error" ≠ Some (VError msg)).
Proof.
  assert (as_error (index (Data e) "error") = None ↔
          ∀ msg, Data e !! "error" ≠ Some (VError msg)) as Hnone.
  { unfold index. destruct (Data e !! "error") as [[]|]; simpl;
      split; try done. intros H. by destruct (H msg). }
  unfold description. destruct (as_error _) as [msg|].
  - split; [apply HasPrefix_app|]. split.
    + intros Heq. apply (f_equal String.length) in Heq.
      rewrite !length_string_app in Heq. simpl in Heq. lia.
    + intros Hno. by apply Hnone in Hno.
  - split; [|split; [intros _; by apply Hnone|done]].
    apply HasPrefix_spec. exists "". by rewrite string_app_nil_r.
Qed.

(** ** Whole requests *)

Section Requests.
Variable growcap : nat → nat → nat.
Variable range_var : loopvar.
Variable OpsGenieAlertV2Client : Type.
Variable AlertV2 : OpsGenieClient → OpsGenieAlertV2Client + string.

Local Abbreviation hook := (hook OpsGenieAlertV2Client).

(** X16. With at most one default team, as in the README, the recipients
    are right whichever way range-loop variables are compiled: there are as
    many as default teams and each denotes the team at its position. *)
Theorem teams_at_most_one (h : hook) (e : Entry) (hp : heap) :
  let ts := default [] (DefaultTeams (config h)) in
  length ts ≤ 1 →
  let r := teams range_var h e hp in
  length r.1 = length ts ∧
  ∀ i t, ts !! i = Some t →
         ∃ l, r.1 !! i = Some l ∧ tvars r.2 !! l = Some t.
Proof.
  intros ts Hlen r. subst r. unfold teams. fold ts.
  destruct ts as [|t [|t' ts]]; [| |simpl in Hlen; lia].
  - destruct range_var; run_M; (split; [done|]); by intros i t.
  - destruct range_var; run_M; (split; [done|]); intros [|i] t0 [=]; subst t0.
    + exists (length (tvars hp)). split; [done|].
      apply list_lookup_insert_eq. rewrite length_app. simpl. lia.
    + exists (length (tvars hp)). split; [done|].
      by rewrite lookup_app_r, Nat.sub_diag by lia.
Qed.

(** X17. A field under the prefix ["ogh:"], whatever its name and value,
    leaves the details as they are without it. *)
Theorem details_ignore_override_fields (e : Entry) (rest : string) (v : value)
    (hp : heap) :
  details (mkEntry (<[OverridePrefix +:+ rest := v]> (Data e))
                   (EntryLevel e) (Message e)) hp
  = details e hp.
Proof.
  apply map_eq. intros key. rewrite !details_lookup. simpl.
  destruct (HasPrefix key OverridePrefix) eqn:Hp; [done|].
  rewrite lookup_insert_ne; [done|]. intros <-.
  assert (HasPrefix (OverridePrefix +:+ rest) OverridePrefix = true)
    by (apply HasPrefix_spec; by exists rest).
  congruence.
Qed.

(** X18. An entry without fields gives the request made of the message
    and the defaults alone: alias from the checksum of the message, the
    message as description, the default tags slice itself, no details, the
    default entity, source and priority; no string array is written. *)
Theorem build_plain_entry (h : hook) (e : Entry) (hp : heap) :
  Data e = ∅ →
  let r := build growcap range_var h e hp in
  r.1 = mkAlert (Message e)
                (FormatUint16 (ChecksumIEEE (bytes (Message e))))
                (Message e)
                (teams range_var h e hp).1
                (DefaultTags (config h))
                ∅
                (DefaultEntity (config h))
                (DefaultSource (config h))
                (DefaultPriority (config h)) ∧
  strs r.2 = strs hp.
Proof.
  intros He r. subst r. rewrite build_unfold.
  pose proof (teams_strs range_var _ h e hp) as Hstrs.
  destruct (teams range_var h e hp) as [tm hp1]. simpl in *.
  rewrite tags_default by (intros s; by rewrite He, lookup_empty).
  split; [|done].
  unfold alias, description, entity, source, priority, details, index.
  rewrite He, !lookup_empty. simpl. by rewrite map_fold_empty.
Qed.

(** X19. Every request built by a hook that [NewHook] returned has a
    priority among P1..P5, whatever priority the configuration was given
    and whatever the entry carries. *)
Theorem NewHook_requests_have_valid_priority
    (apiKey endpoint : string) (c : HookConfig) (hp hp' hp'' : heap)
    (h : hook) (e : Entry) :
  NewHook AlertV2 apiKey endpoint c hp = (inl h, hp') →
  AlertPriority (build growcap range_var h e hp'').1 ∈ [P1; P2; P3; P4; P5].
Proof.
  unfold NewHook.
  destruct (String.eqb apiKey ""); [intros [=]|].
  destruct (String.eqb endpoint ""); [intros [=]|].
  run_M. rewrite Validate_run. cbn zeta. simpl.
  destruct (isValidPriority _) eqn:Hv; [|intros [=]].
  destruct (AlertV2 _) as [cl|msg]; intros [= <- _].
  destruct (build_fields growcap range_var _
              (mkHook cl
                 (mkConfig (Some (default [] (DefaultTeams c)))
                    (if is_nil (DefaultTags c)
                     then (Slice (Some (length (strs hp))) 0 0 0,
                           Heap (strs hp ++ [[]]) (tvars hp))
                     else (DefaultTags c, hp)).1
                    (DefaultEntity c) (DefaultSource c)
                    (if String.eqb (DefaultPriority c) "" then P3
                     else DefaultPriority c))) e hp'')
    as (_ & _ & _ & _ & _ & _ & _ & ->).
  unfold priority. simpl. apply isValidPriority_spec.
  destruct (as_priority _) as [p|]; [|done].
  by destruct (isValidPriority p) eqn:Hp.
Qed.

End Requests.

(** ** The further statements on the sample data *)

Lemma entity_override_or_default_witness :
  Entity (build sample_growcap PerLoop sample_hook sample_routed sample_heap).1 = "db1" ∧
  Entity (build sample_growcap PerLoop sample_full_hook sample_plain sample_heap).1 = "db".
Proof.
  split.
  - apply (proj1 (entity_override_or_default sample_growcap PerLoop unit
                    sample_hook sample_routed sample_heap)).
    vm_compute. reflexivity.
  - apply (proj2 (entity_override_or_default sample_growcap PerLoop unit
                    sample_full_hook sample_plain sample_heap)).
    intros s. vm_compute. discriminate.
Defined.

Lemma source_override_or_default_witness :
  Source (build sample_growcap PerLoop sample_hook sample_routed sample_heap).1 = "" ∧
  Source (build sample_growcap PerLoop sample_hook sample_plain sample_heap).1 = "svc-a".
Proof.
  split.
  - apply (proj1 (source_override_or_default sample_growcap PerLoop unit
                    sample_hook sample_routed sample_heap)).
    vm_compute. reflexivity.
  - apply (proj2 (source_override_or_default sample_growcap PerLoop unit
                    sample_hook sample_plain sample_heap)).
    intros s. vm_compute. discriminate.
Defined.

Lemma priority_always_valid_witness :
  AlertPriority (build sample_growcap PerLoop sample_hook sample_bad_priority sample_heap).1
    ∈ [P1; P2; P3; P4; P5].
Proof.
  apply (priority_always_valid sample_growcap PerLoop unit
           sample_hook sample_bad_priority sample_heap).
  rewrite !elem_of_cons. left. reflexivity.
Defined.

Lemma Validate_idempotent_witness :
  let c := mkConfig None nil_slice "" "" "" in
  Validate (Validate c sample_heap).1.1 (Validate c sample_heap).2
    = ((Validate c sample_heap).1.1, None, (Validate c sample_heap).2).
Proof.
  apply (Validate_idempotent (mkConfig None nil_slice "" "" "") sample_heap).
  vm_compute. reflexivity.
Defined.

Lemma Validate_frame_witness :
  let c := mkConfig None nil_slice "" "" "" in
  let c' := (Validate c sample_heap).1.1 in
  let hp' := (Validate c sample_heap).2 in
  strs sample_heap `prefix_of` strs hp' ∧
  tvars hp' = tvars sample_heap ∧
  DefaultEntity c' = DefaultEntity c ∧
  DefaultSource c' = DefaultSource c ∧
  wf_slice hp' (DefaultTags c') ∧
  elems hp' (DefaultTags c') = elems sample_heap (DefaultTags c).
Proof.
  apply (Validate_frame (mkConfig None nil_slice "" "" "") sample_heap).
  split; [simpl; lia|reflexivity].
Defined.

Lemma NewHook_hook_ready_witness :
  let h := mkHook tt sample_config in
  "my-api-token" ≠ "" ∧ EndpointEU ≠ "" ∧
  sample_up (mkClient "my-api-token" EndpointEU) = inl (client h) ∧
  DefaultTeams (config h) = Some (default [] (DefaultTeams sample_config)) ∧
  is_nil (DefaultTags (config h)) = false ∧
  wf_slice sample_heap (DefaultTags (config h)) ∧
  elems sample_heap (DefaultTags (config h))
    = elems sample_heap (DefaultTags sample_config) ∧
  DefaultPriority (config h) ∈ [P1; P2; P3; P4; P5] ∧
  DefaultEntity (config h) = DefaultEntity sample_config ∧
  DefaultSource (config h) = DefaultSource sample_config.
Proof.
  apply (NewHook_hook_ready unit sample_up "my-api-token" EndpointEU
           sample_config sample_heap sample_heap (mkHook tt sample_config)).
  - split; [simpl; lia|]. simpl. eexists. split; [reflexivity|simpl; lia].
  - vm_compute. reflexivity.
Defined.

Lemma tags_empty_override_witness :
  tags sample_growcap sample_hook sample_no_tags sample_heap
    = (DefaultTags sample_config, sample_heap).
Proof.
  apply (tags_empty_override sample_growcap unit sample_hook sample_no_tags
           (Slice (Some 0) 1 0 2) sample_heap).
  - split; [simpl; lia|]. simpl. eexists. split; [reflexivity|simpl; lia].
  - vm_compute. reflexivity.
  - reflexivity.
Defined.

Lemma tags_full_default_reallocates_witness :
  let r := tags sample_growcap sample_full_hook sample_minor sample_heap in
  base r.1 = Some (length (strs sample_heap)) ∧ off r.1 = 0 ∧
  tvars r.2 = tvars sample_heap ∧
  ∃ spare, strs r.2 =
    strs sample_heap ++
      [elems sample_heap (DefaultTags (config sample_full_hook)) ++
       elems sample_heap (Slice (Some 2) 0 1 1) ++ spare].
Proof.
  apply (tags_full_default_reallocates sample_growcap unit sample_full_hook
           sample_minor (Slice (Some 2) 0 1 1) sample_heap).
  - split; [simpl; lia|]. simpl. eexists. split; [reflexivity|simpl; lia].
  - reflexivity.
  - vm_compute. reflexivity.
  - vm_compute. discriminate.
Defined.

Lemma tags_keep_defaults_witness :
  let r := build sample_growcap PerLoop sample_hook sample_urgent sample_heap in
  wf_slice r.2 (Tags r.1) ∧
  len (DefaultTags (config sample_hook)) ≤ len (Tags r.1) ∧
  elems sample_heap (DefaultTags (config sample_hook)) `prefix_of` elems r.2 (Tags r.1).
Proof.
  apply (tags_keep_defaults sample_growcap PerLoop unit sample_hook
           sample_urgent sample_heap).
  split; [simpl; lia|]. simpl. eexists. split; [reflexivity|simpl; lia].
Defined.

Lemma Fire_frame_witness :
  let hp' := (Fire sample_growcap PerLoop sample_create sample_hook
                sample_urgent sample_heap).2 in
  let d := DefaultTags (config sample_hook) in
  tvars sample_heap `prefix_of` tvars hp' ∧
  ∀ l arr, strs sample_heap !! l = Some arr →
    ∃ arr', strs hp' !! l = Some arr' ∧ length arr' = length arr ∧
            (base d ≠ Some l → arr' = arr) ∧
            take (off d + len d) arr' = take (off d + len d) arr.
Proof.
  apply (Fire_frame sample_growcap PerLoop unit sample_create sample_hook
           sample_urgent sample_heap).
  split; [simpl; lia|]. simpl. eexists. split; [reflexivity|simpl; lia].
Defined.

Lemma Fire_without_tags_override_witness :
  strs (Fire sample_growcap PerLoop sample_create sample_hook
          sample_detailed sample_heap).2 = strs sample_heap.
Proof.
  apply (Fire_without_tags_override sample_growcap PerLoop unit sample_create
           sample_hook sample_detailed sample_heap).
  intros s. vm_compute. discriminate.
Defined.

Lemma alias_fallback_shape_witness :
  1 ≤ String.length (alias sample_plain) ≤ 8 ∧
  Forall (λ c, is_Some (hex_digit_value c))
         (list_ascii_of_string (alias sample_plain)).
Proof.
  apply (alias_fallback_shape sample_plain).
  intros s. vm_compute. discriminate.
Defined.

Lemma alias_collision_iff_witness :
  alias sample_plain = alias sample_urgent ↔
  crc32_bitwise (bytes (Message sample_plain))
    = crc32_bitwise (bytes (Message sample_urgent)).
Proof.
  apply (alias_collision_iff sample_plain sample_urgent).
  - intros s. vm_compute. discriminate.
  - intros s. vm_compute. discriminate.
Defined.

Lemma teams_at_most_one_witness :
  let ts := default [] (DefaultTeams (config sample_full_hook)) in
  let r := teams PerLoop sample_full_hook sample_plain sample_heap in
  length r.1 = length ts ∧
  ∀ i t, ts !! i = Some t →
         ∃ l, r.1 !! i = Some l ∧ tvars r.2 !! l = Some t.
Proof.
  apply (teams_at_most_one PerLoop unit sample_full_hook sample_plain sample_heap).
  simpl. lia.
Defined.

Lemma build_plain_entry_witness :
  let r := build sample_growcap PerLoop sample_hook sample_plain sample_heap in
  r.1 = mkAlert "disk full"
                (FormatUint16 (ChecksumIEEE (bytes "disk full")))
                "disk full"
                (teams PerLoop sample_hook sample_plain sample_heap).1
                (DefaultTags sample_config) ∅
                (DefaultEntity sample_config) (DefaultSource sample_config)
                (DefaultPriority sample_config) ∧
  strs r.2 = strs sample_heap.
Proof.
  apply (build_plain_entry sample_growcap PerLoop unit sample_hook
           sample_plain sample_heap).
  reflexivity.
Defined.

Lemma NewHook_requests_have_valid_priority_witness :
  AlertPriority
    (build sample_growcap PerLoop
       (mkHook tt (mkConfig (Some []) (Slice (Some 3) 0 0 0) "" "" P3))
       sample_bad_priority sample_heap).1
    ∈ [P1; P2; P3; P4; P5].
Proof.
  apply (NewHook_requests_have_valid_priority sample_growcap PerLoop unit
           sample_up "my-api-token" EndpointEU
           (mkConfig None nil_slice "" "" "") sample_heap
           (Heap (strs sample_heap ++ [[]]) []) sample_heap).
  vm_compute. reflexivity.
Defined.
